(** * Xenosumedia: the justified gallery layout engine and the thumbnail
    build pipeline, embedded from the gallery component ([src/App.tsx] and
    its virtualized variant, which also holds [loadImageAspect] and
    [lowerBound]) and from the thumbnail build script.

    JavaScript numbers are IEEE 754 binary64 values; they are modelled by
    Rocq's primitive floats, whose operations are the same binary64
    operations (round to nearest, ties to even).  Integers that the code
    manipulates with 32-bit operators ([^], [Math.imul], [>>>]) are modelled
    in [Z] with the wrap-around written out.  Arrays are lists, strings are
    [string]s whose characters stand for the code units [charCodeAt]
    returns. *)

From Stdlib Require Import ZArith List String Ascii Bool Lia PeanoNat.
From Stdlib Require Import DecimalString.
From Stdlib Require Import Floats.
From Stdlib Require Uint63.
Import ListNotations.

Set Implicit Arguments.

(* Decimal literals such as 0.12 are read as the nearest binary64 value, as
   JavaScript reads them. *)
Set Warnings "-inexact-float".

(* ================================================================== *)
(** ** JavaScript numbers *)

Module JS.

Local Open Scope float_scope.

Definition number := float.

(** A non-negative integer (an array length, an index, a pixel count)
    seen as a number.  Exact below 2^53. *)
Definition of_Z (z : Z) : number := PrimFloat.of_uint63 (Uint63.of_Z z).
Definition of_nat (n : nat) : number := of_Z (Z.of_nat n).

(** [a > b], [a < b], [a <= b], [a >= b]: false as soon as one side is NaN. *)
Definition gt (a b : number) : bool := b <? a.
Definition lt (a b : number) : bool := a <? b.
Definition le (a b : number) : bool := a <=? b.
Definition ge (a b : number) : bool := b <=? a.

(** [Math.max(a, b)]: NaN when an argument is NaN; [+0] counts as larger
    than [-0]. *)
Definition Math_max (a b : number) : number :=
  if is_nan a || is_nan b then nan
  else if a <? b then b
  else if b <? a then a
  else if get_sign a then b else a.

(** [Math.min(a, b)]: NaN when an argument is NaN; [-0] counts as smaller
    than [+0]. *)
Definition Math_min (a b : number) : number :=
  if is_nan a || is_nan b then nan
  else if a <? b then a
  else if b <? a then b
  else if get_sign a then a else b.


(** [a % n] on the values binary64 holds ([Number::remainder]): NaN for a
    NaN operand, an infinite dividend or a zero divisor; the dividend for
    an infinite divisor or a zero dividend; otherwise the remainder of the
    truncating division, which is representable and takes the sign of the
    dividend.  Both mantissas are brought to the smaller exponent first. *)
Definition SFrem (x y : spec_float) : spec_float :=
  match x, y with
  | S754_nan, _ | _, S754_nan => S754_nan
  | S754_infinity _, _ => S754_nan
  | _, S754_zero _ => S754_nan
  | _, S754_infinity _ => x
  | S754_zero _, _ => x
  | S754_finite sx mx ex, S754_finite sy my ey =>
      let ez := Z.min ex ey in
      let r := Z.rem (Zpos (fst (shl_align mx ex ez)))
                     (Zpos (fst (shl_align my ey ez))) in
      binary_normalize prec emax (cond_Zopp sx r) ez sx
  end.

Definition rem (a n : number) : number :=
  SF2Prim (SFrem (Prim2SF a) (Prim2SF n)).

End JS.

(* ================================================================== *)
(** ** [getFilenameSeed] *)

Module Seed.

Local Open Scope string_scope.

(** [s.split(sep)[0]]: the part of [s] before the first [sep]. *)
Fixpoint before_first (sep : ascii) (s : string) : string :=
  match s with
  | EmptyString => EmptyString
  | String c r => if Ascii.eqb c sep then EmptyString
                  else String c (before_first sep r)
  end.

(** [s.split(sep).pop()]: the part of [s] after the last [sep].  [acc] is
    the segment read since the last separator. *)
Fixpoint after_last_aux (sep : ascii) (s : string) (acc : string) : string :=
  match s with
  | EmptyString => acc
  | String c r => if Ascii.eqb c sep then after_last_aux sep r EmptyString
                  else after_last_aux sep r (acc ++ String c EmptyString)
  end.

Definition after_last (sep : ascii) (s : string) : string :=
  after_last_aux sep s EmptyString.

(** [x || s] on strings: the empty string is falsy. *)
Definition or_string (x s : string) : string :=
  match x with EmptyString => s | _ => x end.

Definition filename (s : string) : string :=
  or_string (after_last "/" (before_first "#" (before_first "?" s))) s.

(** [name.charCodeAt(i)] *)
Definition charCode (c : ascii) : Z := Z.of_N (N_of_ascii c).

Definition FNV_basis : Z := 2166136261.
Definition FNV_prime : Z := 16777619.

(** The 32-bit integer conversions behind the bitwise operators. *)
Definition ToUint32 (z : Z) : Z := (z mod 2 ^ 32)%Z.

Definition ToInt32 (z : Z) : Z :=
  let m := (z mod 2 ^ 32)%Z in
  if (m <? 2 ^ 31)%Z then m else (m - 2 ^ 32)%Z.

(** [a ^ b] *)
Definition xor32 (a b : Z) : Z := ToInt32 (Z.lxor (ToInt32 a) (ToInt32 b)).

(** [Math.imul(a, b)] *)
Definition Math_imul (a b : Z) : Z := ToInt32 (ToInt32 a * ToInt32 b)%Z.

(** [a >>> 0] *)
Definition ushr0 (a : Z) : Z := ToUint32 (ToInt32 a).

(** One round of the loop body: [h ^= name.charCodeAt(i);
    h = Math.imul(h, 16777619); h >>>= 0]. *)
Definition mix (h : Z) (c : ascii) : Z :=
  ushr0 (Math_imul (xor32 h (charCode c)) FNV_prime).

Fixpoint hash (name : string) (h : Z) : Z :=
  match name with
  | EmptyString => h
  | String c r => hash r (mix h c)
  end.

(** [%] is the remainder that takes the sign of the dividend; [h] is
    never negative here. *)
Definition getFilenameSeed (s : string) : JS.number :=
  let name := filename s in
  let h := hash name (ushr0 FNV_basis) in
  (JS.of_Z (Z.rem h 100000) / 100000)%float.

End Seed.

(* ================================================================== *)
(** ** The justified row layout ([computeRows]) *)

Module Layout.

Import JS Seed.
Local Open Scope float_scope.

Record JustifiedItem := {
  src : string;
  alt : string;
  category : string;
  aspectRatio : number;
  (** the hidden [__globalIndex] field the gallery attaches; [None] is
      [undefined] *)
  __globalIndex : option nat
}.

Record SizedItem := {
  item : JustifiedItem;
  width : number;
  height : number;
  globalIndex : option nat
}.

Record JustifiedRow := {
  items : list SizedItem;
  row_height : number
}.

(** The variables the closure [pushRow] and the loop share. *)
Record LoopState := {
  rows : list JustifiedRow;
  currentRow : list JustifiedItem;
  currentWidthAtBase : number;
  rowIndex : nat
}.

Section Params.

Variables (containerWidth gap baseRowHeight : number).

Definition targetRowHeight (first : JustifiedItem) : number :=
  let seed := getFilenameSeed (src first) in
  let jitter := 1 + (seed - 0.5) * 0.12 in
  baseRowHeight * jitter.

Definition totalAspect (rowItems : list JustifiedItem) : number :=
  fold_left (fun sum it => sum + aspectRatio it) rowItems 0.

(** [height] in [pushRow]: the height at which the row fills the
    container exactly. *)
Definition fillHeight (rowItems : list JustifiedItem) : number :=
  let totalGap := gap * (JS.of_nat (List.length rowItems) - 1) in
  (containerWidth - totalGap) / totalAspect rowItems.

Definition finalHeight (first : JustifiedItem)
           (rowItems : list JustifiedItem) : number :=
  Math_max 80 (Math_min (targetRowHeight first) (fillHeight rowItems * 1.2)).

Definition sizeItem (h : number) (it : JustifiedItem) : SizedItem :=
  {| item := it;
     width := aspectRatio it * h;
     height := h;
     globalIndex := __globalIndex it |}.

Definition makeRow (first : JustifiedItem)
           (rowItems : list JustifiedItem) : JustifiedRow :=
  let h := finalHeight first rowItems in
  {| items := map (sizeItem h) rowItems; row_height := h |}.

Definition pushRow (rowItems : list JustifiedItem) (st : LoopState)
  : LoopState :=
  match rowItems with
  | [] => st
  | first :: _ =>
      {| rows := rows st ++ [makeRow first rowItems];
         currentRow := currentRow st;
         currentWidthAtBase := currentWidthAtBase st;
         rowIndex := S (rowIndex st) |}
  end.

(** The test of the [if] in the loop body. *)
Definition overflows (st : LoopState) (it : JustifiedItem) : bool :=
  let tentativeWidth := aspectRatio it * baseRowHeight in
  let gaps := gap * JS.of_nat (List.length (currentRow st)) in
  negb (List.length (currentRow st) =? 0)%nat
  && JS.gt (currentWidthAtBase st + tentativeWidth + gaps)
           (containerWidth * 1.15).

(** One iteration of [for (const it of items)]. *)
Definition step (st : LoopState) (it : JustifiedItem) : LoopState :=
  let tentativeWidth := aspectRatio it * baseRowHeight in
  let st1 :=
    if overflows st it then
      let st' := pushRow (currentRow st) st in
      {| rows := rows st';
         currentRow := [];
         currentWidthAtBase := 0;
         rowIndex := rowIndex st' |}
    else st in
  {| rows := rows st1;
     currentRow := currentRow st1 ++ [it];
     currentWidthAtBase := currentWidthAtBase st1 + tentativeWidth;
     rowIndex := rowIndex st1 |}.

Definition init : LoopState :=
  {| rows := []; currentRow := []; currentWidthAtBase := 0; rowIndex := 0 |}.

Definition loop (its : list JustifiedItem) (st : LoopState) : LoopState :=
  fold_left step its st.

Definition computeRows (its : list JustifiedItem) : list JustifiedRow :=
  if JS.le containerWidth 0 || (List.length its =? 0)%nat then []
  else
    let st := loop its init in
    let st := if negb (List.length (currentRow st) =? 0)%nat
              then pushRow (currentRow st) st else st in
    rows st.

(** One invocation of [computeRows], statement by statement, on a store
    that holds the function's variables as whatever ran before left them
    (as if they outlived the call).  [const rows = []] (line 60) writes
    [rows] before the guard returns it; [let currentRow = []],
    [let currentWidthAtBase = 0] and [let rowIndex = 0] (lines 63 to 65)
    write the other three before the loop reads them.  The result is the
    value returned, with the store as the invocation leaves it. *)
Definition invoke (its : list JustifiedItem) (before : LoopState)
  : list JustifiedRow * LoopState :=
  let st := {| rows := [];
               currentRow := currentRow before;
               currentWidthAtBase := currentWidthAtBase before;
               rowIndex := rowIndex before |} in
  if JS.le containerWidth 0 || (List.length its =? 0)%nat then (rows st, st)
  else
    let st := {| rows := rows st;
                 currentRow := [];
                 currentWidthAtBase := 0;
                 rowIndex := 0 |} in
    let st := loop its st in
    let st := if negb (List.length (currentRow st) =? 0)%nat
              then pushRow (currentRow st) st else st in
    (rows st, st).

End Params.

End Layout.

(* ================================================================== *)
(** ** Aspect-ratio resolution ([loadImageAspect] and the gallery's
       [worker]) *)

Module Aspect.

Import JS Seed Layout.
Local Open Scope float_scope.

Record ImageItem := {
  src : string;
  alt : string;
  category : string
}.

(** What the browser fires for an [Image] whose [src] has been set: the
    error event, or the load event, after which [naturalWidth] and
    [naturalHeight] hold the decoded size (unsigned integers). *)
Inductive ImageEvent :=
| onerror
| onload (naturalWidth naturalHeight : Z).

(** How a promise settles. *)
Inductive Settled (A : Type) :=
| resolved (a : A)
| rejected.

Arguments rejected {A}.

(** The browser: which event each source fires. *)
Definition Browser := string -> ImageEvent.

Definition loadImageAspect (browser : Browser) (s : string)
  : Settled number :=
  match browser s with
  | onload naturalWidth naturalHeight =>
      if (naturalHeight =? 0)%Z then resolved 1
      else resolved (JS.of_Z naturalWidth / JS.of_Z naturalHeight)
  | onerror => resolved 1
  end.

(** The clamp applied to the tweaked ratio. *)
Definition tweaked (s : string) (ratio : number) : number :=
  let r := getFilenameSeed s in
  let tweak := 1 + (r - 0.5) * 0.2 in
  Math_max 0.3 (Math_min 3.5 (ratio * tweak)).

(** The body of the worker's loop for index [i]: a rejected [await] would
    throw, and reject the worker. *)
Definition enrich (browser : Browser) (i : nat) (it : ImageItem)
  : Settled JustifiedItem :=
  match loadImageAspect browser (src it) with
  | rejected => rejected
  | resolved ratio =>
      resolved {| Layout.src := src it;
                  Layout.alt := alt it;
                  Layout.category := category it;
                  aspectRatio := tweaked (src it) ratio;
                  __globalIndex := Some i |}
  end.

(** The array [enriched] once [Promise.all] has settled.  Every index is
    taken by exactly one worker ([nextIndex++] runs between awaits) and
    [enriched[i]] depends on [items[i]] and [i] only, so the array does not
    depend on how the eight workers interleave; a worker that rejects
    rejects the batch. *)
Fixpoint enrichFrom (browser : Browser) (i : nat) (its : list ImageItem)
  : Settled (list JustifiedItem) :=
  match its with
  | [] => resolved []
  | it :: rest =>
      match enrich browser i it with
      | rejected => rejected
      | resolved e =>
          match enrichFrom browser (S i) rest with
          | rejected => rejected
          | resolved es => resolved (e :: es)
          end
      end
  end.

Definition enrichAll (browser : Browser) (its : list ImageItem)
  : Settled (list JustifiedItem) :=
  enrichFrom browser 0 its.

End Aspect.

(* ================================================================== *)
(** ** The thumbnail build ([build] in the thumbnail script) *)

Module Thumbs.

Local Open Scope string_scope.
Local Open Scope Z_scope.

(** [await image.metadata()]: the width, in pixels, may be missing. *)
Record Metadata := { width : option Z }.

Definition widths : list Z := [400; 800; 1200].

Definition qualityFor (w : Z) : Z :=
  if w <=? 400 then 40 else if w <=? 800 then 38 else 35.

(** [meta.width || 2000]: a missing width and the width 0 are falsy. *)
Definition origWidth (meta : Metadata) : Z :=
  match width meta with
  | Some w => if w =? 0 then 2000 else w
  | None => 2000
  end.

Definition decimal (w : Z) : string :=
  NilZero.string_of_int (Z.to_int w).

(** One pass of [for (const w of widths)]: the width handed to [resize],
    the quality handed to [webp], and the URL recorded in [urls[w]]. *)
Record Variant := {
  nominal : Z;
  target : Z;
  quality : Z;
  url : string
}.

Definition variant (baseName : string) (orig : Z) (w : Z) : Variant :=
  {| nominal := w;
     target := Z.min orig w;
     quality := qualityFor w;
     url := "/thumbs/" ++ baseName ++ "-" ++ decimal w ++ ".webp" |}.

Definition variants (baseName : string) (meta : Metadata) : list Variant :=
  map (variant baseName (origWidth meta)) widths.

End Thumbs.

(* ================================================================== *)
(** ** Row virtualization: [lowerBound] *)

Module Virtual.

Import JS.
Local Open Scope Z_scope.

(** [n >>> 1]: [n] is first reduced to an unsigned 32-bit integer. *)
Definition ushr1 (n : Z) : Z := Z.shiftr (n mod 2 ^ 32) 1.

(** [arr[i]]; [None] is [undefined], read past the end. *)
Definition get (arr : list number) (i : Z) : option number :=
  if i <? 0 then None else nth_error arr (Z.to_nat i).

(** [arr[i] < target]; [undefined < target] is false. *)
Definition below (arr : list number) (i : Z) (target : number) : bool :=
  match get arr i with
  | Some a => JS.lt a target
  | None => false
  end.

(** The [while (lo < hi)] loop, run for at most [fuel] iterations; [None]
    when the loop is still running after that. *)
Fixpoint lowerBound_loop (fuel : nat) (arr : list number) (target : number)
         (lo hi : Z) : option Z :=
  if lo <? hi then
    match fuel with
    | O => None
    | S fuel' =>
        let mid := ushr1 (lo + hi) in
        if below arr mid target
        then lowerBound_loop fuel' arr target (mid + 1) hi
        else lowerBound_loop fuel' arr target lo mid
    end
  else Some lo.

Definition lowerBound (fuel : nat) (arr : list number) (target : number)
  : option Z :=
  lowerBound_loop fuel arr target 0 (Z.of_nat (List.length arr)).

End Virtual.

(* ================================================================== *)
(** ** The gallery component around [computeRows] ([JustifiedGallery]) *)

Module Gallery.

Import JS Seed Layout Aspect Virtual.
Local Open Scope float_scope.

Definition gap : number := 14.

(** [width >= 1024 ? 260 : width >= 640 ? 220 : 200] *)
Definition baseRowHeight (width : number) : number :=
  if JS.ge width 1024 then 260
  else if JS.ge width 640 then 220
  else 200.

(** The gallery that does not load the images first:
    [items.map((it, i) => ({ ...it, aspectRatio: 1.5, __globalIndex: i }))]. *)
Fixpoint defaultItemsFrom (i : nat) (its : list ImageItem)
  : list JustifiedItem :=
  match its with
  | [] => []
  | it :: rest =>
      {| Layout.src := Aspect.src it;
         Layout.alt := Aspect.alt it;
         Layout.category := Aspect.category it;
         aspectRatio := 1.5;
         __globalIndex := Some i |} :: defaultItemsFrom (S i) rest
  end.

Definition defaultItems (its : list ImageItem) : list JustifiedItem :=
  defaultItemsFrom 0 its.

(** [rows]: [computeRows(withRatios, width, gap, baseRowHeight)]. *)
Definition galleryRows (withRatios : list JustifiedItem) (width : number)
  : list JustifiedRow :=
  computeRows width gap (baseRowHeight width) withRatios.

(** [totalHeights]: [rows.map((r) => r.height)]. *)
Definition totalHeights (rows : list JustifiedRow) : list number :=
  map row_height rows.

(** [cumulative]: [out[0] = 0] and
    [out[i + 1] = out[i] + totalHeights[i] + (i === length - 1 ? 0 : gap)].
    [acc] is [out[i]]. *)
Fixpoint cumulativeFrom (acc : number) (heights : list number)
  : list number :=
  match heights with
  | [] => []
  | h :: rest =>
      let next := acc + h + match rest with [] => 0 | _ :: _ => gap end in
      next :: cumulativeFrom next rest
  end.

Definition cumulative (heights : list number) : list number :=
  0 :: cumulativeFrom 0 heights.

(** The range [onScroll] computes, for a container whose bounding
    rectangle starts at [rectTop] in a window [innerHeight] high.  The
    indices are integers. *)
Definition visibleRange (fuel : nat) (cumul : list number) (nrows : Z)
           (rectTop innerHeight : number) : option (Z * Z) :=
  let viewportTop := Math_max 0 (- rectTop) in
  let viewportHeight := innerHeight in
  let buffer := 800 in
  let viewStart := Math_max 0 (viewportTop - buffer) in
  let viewEnd := viewportTop + viewportHeight + buffer in
  match lowerBound fuel cumul viewStart, lowerBound fuel cumul viewEnd with
  | Some s, Some e => Some (Z.max 0 (s - 1), Z.min nrows (e + 1))%Z
  | _, _ => None
  end.

(** [startIndex] and [endIndex], the bounds of [rows.slice]. *)
Definition startIndex (range : Z * Z) : Z := fst range.

Definition endIndex (nrows : Z) (range : Z * Z) : Z :=
  Z.min nrows (Z.max (snd range) (startIndex range + 6)).

End Gallery.

(* ================================================================== *)
(** ** The lightbox ([showPrev], [showNext]) *)

Module Lightbox.

Import JS.
Local Open Scope float_scope.

(** The updaters passed to [setLightboxIndex].  [None] for [idx] is [null];
    otherwise [idx] is a number: the index of the image clicked, or what
    [parseInt] read from a deep link [#lb=<digits>].  [length] is
    [allImages.length], an integer below 2^32.
    [idx + allImages.length - 1] is [(idx + allImages.length) - 1]. *)
Definition showPrev (length : Z) (idx : option number) : option number :=
  match idx with
  | None => None
  | Some i => Some (rem (i + JS.of_Z length - 1) (JS.of_Z length))
  end.

Definition showNext (length : Z) (idx : option number) : option number :=
  match idx with
  | None => None
  | Some i => Some (rem (i + 1) (JS.of_Z length))
  end.

End Lightbox.

(* ================================================================== *)
(** ** The manifest: written by [build], read by [findThumbnail] *)

Module Manifest.

Import Seed Thumbs.
Local Open Scope string_scope.

(** *** [isImage]: [/\.(jpe?g|png|webp)$/i.test(file)] *)

(** Case is ignored on the letters A to Z. *)
Definition lower (c : ascii) : ascii :=
  let n := nat_of_ascii c in
  if ((65 <=? n) && (n <=? 90))%nat then ascii_of_nat (n + 32) else c.

Fixpoint lowercase (s : string) : string :=
  match s with
  | EmptyString => EmptyString
  | String c r => String (lower c) (lowercase r)
  end.

(** [s] ends with [suffix]: one of the tails of [s] is [suffix]. *)
Fixpoint ends_with (suffix s : string) : bool :=
  String.eqb s suffix
  || match s with
     | EmptyString => false
     | String _ r => ends_with suffix r
     end.

Definition isImage (file : string) : bool :=
  let f := lowercase file in
  ends_with ".jpg" f || ends_with ".jpeg" f
  || ends_with ".png" f || ends_with ".webp" f.

(** *** The manifest object *)

(** A JavaScript object used as a map from strings; the most recent
    assignment comes first.  A value [None] is [undefined]. *)
Definition ManifestObject := list (string * option string).

Definition assign (k : string) (v : option string) (m : ManifestObject)
  : ManifestObject :=
  (k, v) :: m.

(** [m[k]] *)
Fixpoint lookup (k : string) (m : ManifestObject) : option string :=
  match m with
  | [] => None
  | (k', v) :: rest => if String.eqb k k' then v else lookup k rest
  end.

(** *** One source image of [build] *)

(** A file yielded by [walk], with what Node's [path] functions and
    [sharp] return for it. *)
Record SourceFile := {
  (** the directory [walk] is reading and [entry.name]; the file is
      [path.join(dir, entry.name)] and [path.basename(file)] is
      [entry.name] *)
  dir : string;
  name : string;
  (** [path.relative(path.join(ROOT, "/src/"), file)], with [/] separators *)
  rel : string;
  (** [path.basename(file, path.extname(file))] *)
  baseName : string;
  (** [await image.metadata()] *)
  meta : Metadata
}.

Definition file (f : SourceFile) : string := dir f ++ "/" ++ name f.

(** The name of the file the [w]-variant is written to, in [OUT_DIR]. *)
Definition outName (base : string) (w : Z) : string :=
  base ++ "-" ++ decimal w ++ ".webp".

(** [urls], filled by the loop over [widths]. *)
Definition urlsOf (vs : list Variant) : list (Z * string) :=
  map (fun v => (nominal v, url v)) vs.

(** [urls[w]] *)
Fixpoint urlAt (w : Z) (urls : list (Z * string)) : option string :=
  match urls with
  | [] => None
  | (w', u) :: rest => if (w =? w')%Z then Some u else urlAt w rest
  end.

(** [a || b] on strings that may be undefined. *)
Definition orElse (a b : option string) : option string :=
  match a with
  | Some EmptyString | None => b
  | Some _ => a
  end.

(** [`${x}`] *)
Definition show (x : option string) : string :=
  match x with
  | Some s => s
  | None => "undefined"
  end.

(** What a run of [build] has produced so far: the manifest and the
    names of the files written to [OUT_DIR]. *)
Record BuildState := {
  manifest : ManifestObject;
  written : list string
}.

(** The body of [for await (const file of walk(...))], the same for the
    photos and for the banners, when every decode and write succeeds. *)
Definition processFile (st : BuildState) (f : SourceFile) : BuildState :=
  if negb (isImage (file f)) then st
  else
    let vs := variants (baseName f) (meta f) in
    let urls := urlsOf vs in
    let defaultUrl := orElse (urlAt 800 urls) (urlAt (last widths 0%Z) urls) in
    let prodsrc := "/assets/" ++ name f in
    let relFromSrc := "/" ++ rel f in
    let srcset := show (urlAt 400 urls) ++ " 400w, "
                  ++ show (urlAt 800 urls) ++ " 800w, "
                  ++ show (urlAt 1200 urls) ++ " 1200w" in
    {| manifest :=
         assign ("/src" ++ relFromSrc ++ "__srcset") (Some srcset)
           (assign ("/src" ++ relFromSrc) defaultUrl
              (assign (prodsrc ++ "__srcset") (Some srcset)
                 (assign prodsrc defaultUrl (manifest st))));
       written :=
         written st ++ map (fun v => outName (baseName f) (nominal v)) vs |}.

Definition emptyBuild : BuildState := {| manifest := []; written := [] |}.

(** [build]: the photos, then the banners. *)
Definition build (photos banners : list SourceFile) : BuildState :=
  fold_left processFile banners (fold_left processFile photos emptyBuild).

(** *** The page's side *)

(** [findThumbnail(src, thumbsManifest)] *)
Definition findThumbnail (src : string) (thumbsManifest : ManifestObject)
  : option string :=
  let filename := or_string (after_last "/" src) "" in
  let manifestKey := "/assets/" ++ filename in
  lookup manifestKey thumbsManifest.

(** [thumb || item.src] *)
Definition displaySrc (src : string) (thumbsManifest : ManifestObject)
  : string :=
  show (orElse (findThumbnail src thumbsManifest) (Some src)).

End Manifest.

(* ================================================================== *)
(** ** The directory walk of the build ([walk]) *)

Module Walk.

Local Open Scope string_scope.

(** What [fs.readdir(dir, { withFileTypes: true })] finds: files, and
    directories with their own entries. *)
Inductive Entry : Type :=
| FileEntry (name : string)
| DirEntry (name : string) (entries : list Entry).

Section Join.

(** [path.join(dir, name)], from Node's [path] module. *)
Variable join : string -> string -> string.

(** What [walk(dir)] yields for one entry of [dir], in order. *)
Fixpoint walkEntry (dir : string) (entry : Entry) : list string :=
  match entry with
  | FileEntry name => [join dir name]
  | DirEntry name entries => flat_map (walkEntry (join dir name)) entries
  end.

(** [walk(dir)], for a directory with the given entries. *)
Definition walk (dir : string) (entries : list Entry) : list string :=
  flat_map (walkEntry dir) entries.

End Join.

End Walk.

(* ================================================================== *)
(** ** Facts about number comparison, [Math.max] and [Math.min] *)

Module JSFacts.

Import JS.
Local Open Scope float_scope.

(** The order on numbers is a lexicographic order on integer keys: sign
    class first, then exponent, then mantissa. *)
Definition SFkey (x : spec_float) : Z * Z * Z :=
  match x with
  | S754_nan => (0, 0, 0)%Z
  | S754_zero _ => (0, 0, 0)%Z
  | S754_infinity s => if s then (-2, 0, 0)%Z else (2, 0, 0)%Z
  | S754_finite s m e => if s then (-1, - e, Zneg m)%Z else (1, e, Zpos m)%Z
  end.

Definition lexcmp (a b : Z * Z * Z) : comparison :=
  let '(a1, a2, a3) := a in
  let '(b1, b2, b3) := b in
  match (a1 ?= b1)%Z with
  | Eq => match (a2 ?= b2)%Z with
          | Eq => (a3 ?= b3)%Z
          | c => c
          end
  | c => c
  end.

Lemma SFcompare_swap (x y : spec_float) :
  SFcompare y x = option_map CompOpp (SFcompare x y).
Proof.
  destruct x as [sx| sx| |sx mx ex], y as [sy| sy| |sy my ey]; simpl;
    try reflexivity;
    try (destruct sx; reflexivity); try (destruct sy; reflexivity);
    try (destruct sx, sy; reflexivity).
  destruct sx, sy; simpl; try reflexivity;
    rewrite (Z.compare_antisym ex ey);
    destruct (ex ?= ey)%Z; simpl; try reflexivity;
    rewrite (Pos.compare_cont_antisym mx my Eq); reflexivity.
Qed.

Lemma SFcompare_diag (x : spec_float) :
  x <> S754_nan -> SFcompare x x = Some Eq.
Proof.
  destruct x as [sx| sx| |sx mx ex]; simpl; intros H;
    try reflexivity; try congruence.
  - destruct sx; reflexivity.
  - destruct sx; rewrite Z.compare_refl, Pos.compare_cont_refl; reflexivity.
Qed.

Lemma SFcompare_some (x y : spec_float) :
  x <> S754_nan -> y <> S754_nan -> exists c, SFcompare x y = Some c.
Proof.
  destruct x, y; simpl; intros Hx Hy; try congruence; eauto.
Qed.

Lemma is_nan_false (a : number) :
  is_nan a = false <-> Prim2SF a <> S754_nan.
Proof.
  unfold is_nan. rewrite eqb_spec. unfold SFeqb. split.
  - intros H E. rewrite E in H. discriminate.
  - intros H. rewrite (SFcompare_diag H). reflexivity.
Qed.

Lemma ltb_leb (a b : number) : (a <? b) = true -> (a <=? b) = true.
Proof.
  rewrite ltb_spec, leb_spec. unfold SFltb, SFleb.
  destruct (SFcompare (Prim2SF a) (Prim2SF b)) as [[]|]; congruence.
Qed.

Lemma ltb_not_leb (a b : number) : (a <? b) = true -> (b <=? a) = false.
Proof.
  rewrite ltb_spec, leb_spec. unfold SFltb, SFleb.
  rewrite (SFcompare_swap (Prim2SF a) (Prim2SF b)).
  destruct (SFcompare (Prim2SF a) (Prim2SF b)) as [[]|]; simpl; congruence.
Qed.

Lemma leb_not_ltb (a b : number) : (a <=? b) = true -> (b <? a) = false.
Proof.
  rewrite ltb_spec, leb_spec. unfold SFltb, SFleb.
  rewrite (SFcompare_swap (Prim2SF a) (Prim2SF b)).
  destruct (SFcompare (Prim2SF a) (Prim2SF b)) as [[]|]; simpl; congruence.
Qed.

Lemma leb_refl (a : number) : is_nan a = false -> (a <=? a) = true.
Proof.
  intros H. apply is_nan_false in H.
  rewrite leb_spec. unfold SFleb. rewrite (SFcompare_diag H). reflexivity.
Qed.

Lemma not_ltb_leb (a b : number) :
  is_nan a = false -> is_nan b = false ->
  (a <? b) = false -> (b <=? a) = true.
Proof.
  intros Ha Hb. apply is_nan_false in Ha. apply is_nan_false in Hb.
  rewrite ltb_spec, leb_spec. unfold SFltb, SFleb.
  rewrite (SFcompare_swap (Prim2SF a) (Prim2SF b)).
  destruct (SFcompare_some Ha Hb) as [c ->].
  destruct c; simpl; congruence.
Qed.

Lemma leb_not_nan_l (a b : number) : (a <=? b) = true -> is_nan a = false.
Proof.
  rewrite leb_spec. unfold SFleb. intros H. apply is_nan_false. intros E.
  rewrite E in H. discriminate.
Qed.

Lemma ltb_not_nan_r (a b : number) : (a <? b) = true -> is_nan b = false.
Proof.
  rewrite ltb_spec. unfold SFltb. intros H. apply is_nan_false. intros E.
  rewrite E in H. destruct (Prim2SF a); discriminate.
Qed.

Create HintDb jsnum.
#[export] Hint Resolve ltb_leb leb_refl not_ltb_leb : jsnum.

(** Case analysis on the branch [Math.max] or [Math.min] takes once both
    arguments are numbers. *)
Ltac branches a b :=
  let Hab := fresh "Hab" in
  let Hba := fresh "Hba" in
  destruct (a <? b) eqn:Hab;
  [|destruct (b <? a) eqn:Hba; [|destruct (get_sign a)]].

(** What [Math.max] returns when its result is a number. *)
Lemma Math_max_number (a b : number) :
  is_nan (Math_max a b) = false ->
  is_nan a = false /\ is_nan b = false /\
  (a <=? Math_max a b) = true /\ (b <=? Math_max a b) = true /\
  (Math_max a b = a \/ Math_max a b = b).
Proof.
  unfold Math_max.
  destruct (is_nan a) eqn:Ha; [simpl; intros H; discriminate H|].
  destruct (is_nan b) eqn:Hb; [simpl; intros H; discriminate H|].
  simpl. intros _. split; [reflexivity|]. split; [reflexivity|].
  branches a b; (split; [|split]); auto with jsnum.
Qed.

(** What [Math.min] returns when its result is a number. *)
Lemma Math_min_number (a b : number) :
  is_nan (Math_min a b) = false ->
  is_nan a = false /\ is_nan b = false /\
  (Math_min a b <=? a) = true /\ (Math_min a b <=? b) = true /\
  (Math_min a b = a \/ Math_min a b = b).
Proof.
  unfold Math_min.
  destruct (is_nan a) eqn:Ha; [simpl; intros H; discriminate H|].
  destruct (is_nan b) eqn:Hb; [simpl; intros H; discriminate H|].
  simpl. intros _. split; [reflexivity|]. split; [reflexivity|].
  branches a b; (split; [|split]); auto with jsnum.
Qed.


Lemma SFcompare_key (x y : spec_float) :
  x <> S754_nan -> y <> S754_nan ->
  SFcompare x y = Some (lexcmp (SFkey x) (SFkey y)).
Proof.
  intros Hx Hy.
  destruct x as [sx| sx| |sx mx ex]; [| |congruence|];
    (destruct y as [sy| sy| |sy my ey]; [| |congruence|]);
    destruct sx, sy; try reflexivity; cbn.
  rewrite Z.compare_opp, (Z.compare_antisym ex ey).
  destruct (ex ?= ey)%Z; reflexivity.
Qed.

Lemma lexcmp_le_lt_trans (a b c : Z * Z * Z) :
  lexcmp a b <> Gt -> lexcmp b c = Lt -> lexcmp a c = Lt.
Proof.
  destruct a as [[a1 a2] a3], b as [[b1 b2] b3], c as [[c1 c2] c3].
  unfold lexcmp.
  destruct (Z.compare_spec a1 b1), (Z.compare_spec b1 c1),
    (Z.compare_spec a1 c1);
    try lia; try congruence;
    destruct (Z.compare_spec a2 b2), (Z.compare_spec b2 c2),
      (Z.compare_spec a2 c2);
    try lia; try congruence;
    destruct (Z.compare_spec a3 b3), (Z.compare_spec b3 c3),
      (Z.compare_spec a3 c3);
    try lia; try congruence.
Qed.

Lemma SFcompare_defined (x y : spec_float) (c : comparison) :
  SFcompare x y = Some c -> x <> S754_nan /\ y <> S754_nan.
Proof.
  destruct x, y; simpl; intros H; split; congruence.
Qed.

(** [a <= b] and [b < c] give [a < c]. *)
Lemma leb_ltb_trans (a b c : number) :
  (a <=? b) = true -> (b <? c) = true -> (a <? c) = true.
Proof.
  rewrite leb_spec, !ltb_spec. unfold SFleb, SFltb.
  destruct (SFcompare (Prim2SF a) (Prim2SF b)) as [cab|] eqn:Eab;
    [|discriminate].
  destruct (SFcompare (Prim2SF b) (Prim2SF c)) as [cbc|] eqn:Ebc;
    [|discriminate].
  destruct (SFcompare_defined _ _ Eab) as [Na Nb].
  destruct (SFcompare_defined _ _ Ebc) as [_ Nc].
  rewrite (SFcompare_key Na Nb) in Eab.
  rewrite (SFcompare_key Nb Nc) in Ebc.
  rewrite (SFcompare_key Na Nc).
  intros H1 H2.
  rewrite (@lexcmp_le_lt_trans (SFkey (Prim2SF a)) (SFkey (Prim2SF b))
                               (SFkey (Prim2SF c))); [reflexivity| |].
  - injection Eab as Eab. rewrite Eab. intros E. rewrite E in H1.
    discriminate.
  - injection Ebc as Ebc. rewrite Ebc. destruct cbc; congruence.
Qed.

End JSFacts.

(* ================================================================== *)
(** ** Rounding to binary64: when an operation gives a number, and when it
       is exact *)

Module Rounding.

Local Open Scope Z_scope.

Local Abbreviation emin := (SpecFloat.emin prec emax).
Local Abbreviation fexp := (SpecFloat.fexp prec emax).

Lemma emin_value : emin = -1074.
Proof. reflexivity. Qed.

Lemma fexp_value (e : Z) : fexp e = Z.max (e - 53) (-1074).
Proof. reflexivity. Qed.

Lemma digits_size (p : positive) : digits2_pos p = Pos.size p.
Proof. induction p; simpl; congruence. Qed.

Lemma digits_log2 (p : positive) :
  Zpos (digits2_pos p) = Z.log2 (Zpos p) + 1.
Proof.
  rewrite digits_size. destruct p; simpl; try reflexivity;
    rewrite Pos2Z.inj_succ; lia.
Qed.

Lemma digits_bounds (p : positive) :
  2 ^ (Zpos (digits2_pos p) - 1) <= Zpos p < 2 ^ Zpos (digits2_pos p).
Proof.
  rewrite digits_log2.
  replace (Z.log2 (Zpos p) + 1 - 1) with (Z.log2 (Zpos p)) by lia.
  replace (Z.log2 (Zpos p) + 1) with (Z.succ (Z.log2 (Zpos p))) by lia.
  apply Z.log2_spec. reflexivity.
Qed.

Lemma digits_mul_pow2 (p : positive) (k : Z) :
  0 <= k -> Zdigits2 (Zpos p * 2 ^ k) = Zpos (digits2_pos p) + k.
Proof.
  intros Hk.
  assert (P : 0 < Zpos p * 2 ^ k) by (apply Z.mul_pos_pos; [reflexivity|apply Z.pow_pos_nonneg; lia]).
  destruct (Zpos p * 2 ^ k) as [|q|q] eqn:E; try lia.
  cbn [Zdigits2]. rewrite !digits_log2, <- E.
  rewrite Z.log2_mul_pow2 by lia. lia.
Qed.

Lemma iter_pos_nat {A : Type} (f : A -> A) (n : positive) :
  forall x, iter_pos f n x = Nat.iter (Pos.to_nat n) f x.
Proof.
  induction n as [n IH|n IH|]; intros x; cbn [iter_pos].
  - rewrite !IH, Pos2Nat.inj_xI, Nat.iter_succ_r.
    replace (2 * Pos.to_nat n)%nat with (Pos.to_nat n + Pos.to_nat n)%nat by lia.
    rewrite Nat.iter_add. reflexivity.
  - rewrite !IH, Pos2Nat.inj_xO.
    replace (2 * Pos.to_nat n)%nat with (Pos.to_nat n + Pos.to_nat n)%nat by lia.
    rewrite Nat.iter_add. reflexivity.
  - reflexivity.
Qed.

Lemma shr_1_m (mrs : shr_record) :
  0 <= shr_m mrs -> shr_m (shr_1 mrs) = shr_m mrs / 2.
Proof.
  destruct mrs as [m r s]. cbn [shr_m]. intros H.
  destruct m as [|[p|p|]|p]; cbn [shr_1 shr_m]; try lia.
  - reflexivity.
  - rewrite Pos2Z.inj_xI. apply Z.div_unique with 1; lia.
  - rewrite Pos2Z.inj_xO. apply Z.div_unique with 0; lia.
  - reflexivity.
Qed.

Lemma shr_1_even (y : Z) :
  0 <= y ->
  shr_1 (Build_shr_record (2 * y) false false) = Build_shr_record y false false.
Proof.
  intros H. destruct y as [|p|p]; try lia; reflexivity.
Qed.

Lemma shr_iter_m (k : nat) :
  forall mrs, 0 <= shr_m mrs ->
              shr_m (Nat.iter k shr_1 mrs) = shr_m mrs / 2 ^ Z.of_nat k.
Proof.
  induction k as [|k IH]; intros mrs H.
  - cbn. rewrite Z.div_1_r. reflexivity.
  - rewrite Nat.iter_succ_r, IH, shr_1_m by (rewrite ?shr_1_m by exact H; try apply Z.div_pos; lia).
    rewrite Z.div_div by (try apply Z.pow_pos_nonneg; lia).
    rewrite Nat2Z.inj_succ, Z.pow_succ_r by lia. reflexivity.
Qed.

Lemma shr_iter_exact (k : nat) :
  forall c, 0 <= c ->
    Nat.iter k shr_1 (Build_shr_record (c * 2 ^ Z.of_nat k) false false)
    = Build_shr_record c false false.
Proof.
  induction k as [|k IH]; intros c H.
  - cbn. rewrite Z.mul_1_r. reflexivity.
  - rewrite Nat.iter_succ_r, Nat2Z.inj_succ, Z.pow_succ_r by lia.
    replace (c * (2 * 2 ^ Z.of_nat k)) with (2 * (c * 2 ^ Z.of_nat k)) by lia.
    rewrite shr_1_even by (apply Z.mul_nonneg_nonneg; [lia|apply Z.pow_nonneg; lia]).
    apply IH, H.
Qed.

Lemma shr_record_of_loc_m (m : Z) (l : location) :
  shr_m (shr_record_of_loc m l) = m.
Proof. destruct l as [|[]]; reflexivity. Qed.

(** [shr] on a non-negative mantissa divides it by a power of two. *)
Lemma shr_m_value (mrs : shr_record) (e n : Z) :
  0 <= shr_m mrs ->
  shr_m (fst (shr mrs e n)) = shr_m mrs / 2 ^ Z.max 0 n
  /\ snd (shr mrs e n) = e + Z.max 0 n.
Proof.
  intros H. destruct n as [|p|p]; cbn [shr fst snd].
  - rewrite Z.div_1_r. split; [reflexivity|lia].
  - rewrite iter_pos_nat, shr_iter_m by exact H.
    rewrite positive_nat_Z. split; [reflexivity|lia].
  - rewrite Z.div_1_r. split; [reflexivity|lia].
Qed.

Lemma shr_fexp_value (m e : Z) (l : location) :
  0 <= m ->
  let n := Z.max 0 (fexp (Zdigits2 m + e) - e) in
  shr_m (fst (shr_fexp prec emax m e l)) = m / 2 ^ n
  /\ snd (shr_fexp prec emax m e l) = e + n.
Proof.
  intros H. unfold shr_fexp.
  pose proof (@shr_m_value (shr_record_of_loc m l) e
                (fexp (Zdigits2 m + e) - e)) as V.
  rewrite shr_record_of_loc_m in V. exact (V H).
Qed.

Lemma Zdigits2_bounds (m : Z) :
  0 < m -> 2 ^ (Zdigits2 m - 1) <= m < 2 ^ Zdigits2 m.
Proof.
  destruct m as [|p|p]; try lia. intros _. apply digits_bounds.
Qed.

Lemma Zdigits2_pos (m : Z) : 0 < m -> 0 < Zdigits2 m.
Proof. destruct m; cbn; lia. Qed.


Lemma round_nearest_even_cases (m : Z) (l : location) :
  round_nearest_even m l = m \/ round_nearest_even m l = m + 1.
Proof.
  destruct l as [|[]]; cbn; auto. destruct (Z.even m); auto.
Qed.

(** What rounding a non-negative mantissa of any exponent gives. *)
Lemma binary_round_aux_number (sx : bool) (mx ex : Z) (lx : location) :
  0 <= mx -> binary_round_aux prec emax sx mx ex lx <> S754_nan.
Proof.
  intros H. unfold binary_round_aux.
  destruct (shr_fexp prec emax mx ex lx) as [mrs' e'] eqn:E1.
  pose proof (@shr_fexp_value mx ex lx H) as V1. rewrite E1 in V1.
  cbn [fst snd] in V1. destruct V1 as [V1 _].
  set (m1 := round_nearest_even (shr_m mrs') (loc_of_shr_record mrs')).
  assert (H1 : 0 <= m1).
  { assert (0 <= shr_m mrs') by (rewrite V1; apply Z.div_pos; [lia|apply Z.pow_pos_nonneg; lia]).
    destruct (round_nearest_even_cases (shr_m mrs') (loc_of_shr_record mrs'));
      unfold m1; lia. }
  destruct (shr_fexp prec emax m1 e' loc_Exact) as [mrs'' e''] eqn:E2.
  pose proof (@shr_fexp_value m1 e' loc_Exact H1) as V2. rewrite E2 in V2.
  cbn [fst snd] in V2. destruct V2 as [V2 _].
  assert (H2 : 0 <= shr_m mrs'') by (rewrite V2; apply Z.div_pos; [lia|apply Z.pow_pos_nonneg; lia]).
  destruct (shr_m mrs''); try lia; try discriminate.
  destruct (e'' <=? emax - prec); discriminate.
Qed.




(** *** Mantissas that need no rounding *)

Lemma iter_xO (m d : positive) : Zpos (Pos.iter xO m d) = Zpos m * 2 ^ Zpos d.
Proof.
  induction d as [|d IH] using Pos.peano_ind.
  - cbn [Pos.iter]. rewrite Pos2Z.inj_xO. lia.
  - rewrite Pos.iter_succ, Pos2Z.inj_xO, IH, Pos2Z.inj_succ,
      Z.pow_succ_r by lia. lia.
Qed.

Lemma shl_align_value (m : positive) (e e' : Z) :
  Zpos (fst (shl_align m e e')) = Zpos m * 2 ^ Z.max 0 (e - e')
  /\ snd (shl_align m e e') = Z.min e e'.
Proof.
  unfold shl_align. destruct (e' - e) as [|d|d] eqn:E; cbn [fst snd].
  - replace (Z.max 0 (e - e')) with 0 by lia. lia.
  - replace (Z.max 0 (e - e')) with 0 by lia. lia.
  - rewrite iter_xO. replace (Z.max 0 (e - e')) with (Zpos d) by lia. lia.
Qed.

Lemma Zdigits2_mul_pow2 (c n : Z) :
  0 < c -> 0 <= n -> Zdigits2 (c * 2 ^ n) = Zdigits2 c + n.
Proof.
  intros Hc Hn. destruct c as [|p|p]; try lia.
  rewrite digits_mul_pow2 by exact Hn. reflexivity.
Qed.

Lemma shr_fexp_shift (c n e : Z) :
  0 < c -> 0 <= n ->
  fexp (Zdigits2 (c * 2 ^ n) + e) - e = n ->
  shr_fexp prec emax (c * 2 ^ n) e loc_Exact
  = (Build_shr_record c false false, e + n).
Proof.
  intros Hc Hn Hs. unfold shr_fexp. rewrite Hs. cbn [shr_record_of_loc].
  destruct n as [|p|p]; try lia; cbn [shr].
  - rewrite Z.mul_1_r, Z.add_0_r. reflexivity.
  - rewrite iter_pos_nat. rewrite <- (positive_nat_Z p) at 1.
    rewrite shr_iter_exact by lia. reflexivity.
Qed.

(** A mantissa of 53 digits followed by zeros, in the normal range, is
    kept as it is. *)
Lemma binary_round_aux_exact (sx : bool) (c n e : Z) :
  0 < c -> Zdigits2 c = 53 -> 0 <= n ->
  emin <= e + n -> e + n <= 971 ->
  binary_round_aux prec emax sx (c * 2 ^ n) e loc_Exact
  = S754_finite sx (Z.to_pos c) (e + n).
Proof.
  intros Hc Hd Hn Hlo Hhi. rewrite emin_value in Hlo.
  unfold binary_round_aux.
  rewrite shr_fexp_shift;
    [|exact Hc|exact Hn
     |rewrite Zdigits2_mul_pow2, Hd, fexp_value by assumption; lia].
  cbn [shr_m loc_of_shr_record round_nearest_even].
  replace c with (c * 2 ^ 0) at 1 by (rewrite Z.mul_1_r; reflexivity).
  rewrite shr_fexp_shift;
    [|exact Hc|lia
     |rewrite Zdigits2_mul_pow2, Hd, fexp_value by lia; lia].
  cbn [shr_m]. destruct c as [|p|p]; try lia.
  replace (e + n + 0 <=? emax - prec) with true
    by (symmetry; apply Z.leb_le; change (emax - prec) with 971; lia).
  rewrite Z.add_0_r. reflexivity.
Qed.

(** Rounding [q * 2 ^ (e + k)], where [q] has at most 53 digits, gives
    that number, with [q] shifted to 53 digits. *)
Lemma binary_round_exact (sx : bool) (m : positive) (e q k : Z) :
  0 < q -> 0 <= k -> Zpos m = q * 2 ^ k ->
  Zdigits2 q <= 53 ->
  emin <= e + k + Zdigits2 q - 53 -> e + k + Zdigits2 q - 53 <= 971 ->
  binary_round prec emax sx m e
  = S754_finite sx (Z.to_pos (q * 2 ^ (53 - Zdigits2 q)))
                (e + k + Zdigits2 q - 53).
Proof.
  intros Hq Hk Hm Hd Hlo Hhi. rewrite emin_value in Hlo.
  set (d := Zdigits2 q) in *.
  assert (Dm : Zpos (digits2_pos m) = d + k).
  { change (Zpos (digits2_pos m)) with (Zdigits2 (Zpos m)).
    rewrite Hm. apply Zdigits2_mul_pow2; assumption. }
  set (M := q * 2 ^ (53 - d)).
  assert (HM : 0 < M) by (apply Z.mul_pos_pos; [lia|apply Z.pow_pos_nonneg; lia]).
  assert (DM : Zdigits2 M = 53)
    by (unfold M; rewrite Zdigits2_mul_pow2 by lia; fold d; lia).
  unfold binary_round.
  destruct (shl_align m e (fexp (Zpos (digits2_pos m) + e))) as [mz ez] eqn:S.
  pose proof (shl_align_value m e (fexp (Zpos (digits2_pos m) + e))) as V.
  rewrite S in V. cbn [fst snd] in V. destruct V as [Vm Ve].
  rewrite Dm, fexp_value in Vm, Ve.
  destruct (Z_lt_le_dec (d + k) 53) as [Lt|Ge].
  - (* the mantissa is shifted left to 53 digits *)
    assert (Emz : Zpos mz = M * 2 ^ 0).
    { rewrite Vm, Hm, Z.mul_1_r. unfold M. rewrite <- Z.mul_assoc, <- Z.pow_add_r by lia.
      f_equal. f_equal. lia. }
    rewrite Emz, binary_round_aux_exact
      by (rewrite ?emin_value; try assumption; lia).
    f_equal. lia.
  - (* the mantissa ends in [d + k - 53] zeros *)
    assert (Emz : Zpos mz = M * 2 ^ (d + k - 53)).
    { rewrite Vm, Hm. replace (Z.max 0 (e - Z.max (d + k + e - 53) (-1074))) with 0 by lia.
      rewrite Z.mul_1_r. unfold M. rewrite <- Z.mul_assoc, <- Z.pow_add_r by lia.
      f_equal. f_equal. lia. }
    rewrite Emz, binary_round_aux_exact
      by (rewrite ?emin_value; try assumption; lia).
    f_equal. lia.
Qed.

(** The binary64 value of an integer that needs no rounding. *)
Definition canon (z : Z) : spec_float :=
  match z with
  | Z0 => S754_zero false
  | Zpos p => S754_finite false (Z.to_pos (z * 2 ^ (53 - Zdigits2 z)))
                          (Zdigits2 z - 53)
  | Zneg p => S754_finite true (Z.to_pos (- z * 2 ^ (53 - Zdigits2 z)))
                          (Zdigits2 z - 53)
  end.

Lemma Zdigits2_le (z : Z) (n : Z) : 0 < z < 2 ^ n -> Zdigits2 z <= n.
Proof.
  intros [Hz Hn]. pose proof (@Zdigits2_bounds z Hz) as B.
  destruct (Z_lt_le_dec n (Zdigits2 z)) as [L|L]; [|exact L].
  assert (2 ^ n <= 2 ^ (Zdigits2 z - 1)).
  { apply Z.pow_le_mono_r; [lia|]. lia. }
  lia.
Qed.

Lemma binary_normalize_exact (z k e : Z) :
  0 < z < 2 ^ 53 -> 0 <= k -> e + k = 0 ->
  binary_normalize prec emax (z * 2 ^ k) e false = canon z.
Proof.
  intros Hz Hk He.
  assert (P : 0 < z * 2 ^ k) by (apply Z.mul_pos_pos; [lia|apply Z.pow_pos_nonneg; lia]).
  destruct (z * 2 ^ k) as [|m|m] eqn:E; try lia.
  cbn [binary_normalize].
  pose proof (@Zdigits2_le z 53 Hz) as D.
  pose proof (@Zdigits2_pos z ltac:(lia)) as D0.
  rewrite (@binary_round_exact false m e z k); try lia;
    [|rewrite emin_value; lia].
  destruct z as [|p|p]; try lia. cbn [canon]. f_equal. lia.
Qed.


Lemma canon_aligned (z ez : Z) :
  0 < z < 2 ^ 53 -> ez <= Zdigits2 z - 53 ->
  Zpos (fst (shl_align (Z.to_pos (z * 2 ^ (53 - Zdigits2 z)))
                       (Zdigits2 z - 53) ez))
  = z * 2 ^ (- ez).
Proof.
  intros Hz He.
  pose proof (@Zdigits2_le z 53 Hz) as D.
  destruct (shl_align_value (Z.to_pos (z * 2 ^ (53 - Zdigits2 z)))
                            (Zdigits2 z - 53) ez) as [-> _].
  rewrite Z2Pos.id
    by (apply Z.mul_pos_pos; [lia|apply Z.pow_pos_nonneg; lia]).
  rewrite <- Z.mul_assoc, <- Z.pow_add_r by lia. f_equal. f_equal. lia.
Qed.

Lemma SFadd_canon (a b : Z) :
  0 <= a -> 0 <= b -> a + b < 2 ^ 53 ->
  SFadd prec emax (canon a) (canon b) = canon (a + b).
Proof.
  intros Ha Hb Hs.
  destruct a as [|a|a], b as [|b|b]; try lia; try reflexivity.
  pose proof (@Zdigits2_le (Zpos a) 53 ltac:(lia)) as Da.
  pose proof (@Zdigits2_le (Zpos b) 53 ltac:(lia)) as Db.
  unfold canon at 1 2. cbn [SFadd cond_Zopp].
  remember (Z.min (Zdigits2 (Zpos a) - 53) (Zdigits2 (Zpos b) - 53)) as ez
    eqn:Ez.
  rewrite !canon_aligned by lia.
  rewrite <- Z.mul_add_distr_r.
  apply binary_normalize_exact; lia.
Qed.

Lemma SFsub_canon (a b : Z) :
  0 <= b <= a -> a < 2 ^ 53 ->
  SFsub prec emax (canon a) (canon b) = canon (a - b).
Proof.
  intros Hb Ha.
  destruct a as [|a|a], b as [|b|b]; try lia; try reflexivity.
  pose proof (@Zdigits2_le (Zpos a) 53 ltac:(lia)) as Da.
  pose proof (@Zdigits2_le (Zpos b) 53 ltac:(lia)) as Db.
  unfold canon at 1 2. cbn [SFsub cond_Zopp].
  remember (Z.min (Zdigits2 (Zpos a) - 53) (Zdigits2 (Zpos b) - 53)) as ez
    eqn:Ez.
  rewrite !canon_aligned by lia.
  rewrite <- Z.mul_sub_distr_r.
  destruct (Z.eq_dec (Zpos a) (Zpos b)) as [E|N].
  - rewrite E, Z.sub_diag. reflexivity.
  - apply binary_normalize_exact; lia.
Qed.

Lemma SFrem_canon (a n : Z) :
  0 <= a < 2 ^ 53 -> 0 < n < 2 ^ 53 ->
  JS.SFrem (canon a) (canon n) = canon (Z.rem a n).
Proof.
  intros Ha Hn.
  destruct n as [|n|n]; try lia.
  destruct a as [|a|a]; try lia; [reflexivity|].
  pose proof (@Zdigits2_le (Zpos a) 53 ltac:(lia)) as Da.
  pose proof (@Zdigits2_le (Zpos n) 53 ltac:(lia)) as Dn.
  unfold canon at 1 2. cbn [JS.SFrem cond_Zopp].
  remember (Z.min (Zdigits2 (Zpos a) - 53) (Zdigits2 (Zpos n) - 53)) as ez
    eqn:Ez.
  rewrite !canon_aligned by lia.
  assert (P : 0 < 2 ^ (- ez)) by (apply Z.pow_pos_nonneg; lia).
  rewrite !Z.rem_mod_nonneg by (try apply Z.mul_pos_pos; try apply Z.mul_nonneg_nonneg; lia).
  rewrite Z.mul_mod_distr_r by lia.
  pose proof (Z.mod_pos_bound (Zpos a) (Zpos n) ltac:(lia)) as B.
  destruct (Z.eq_dec (Zpos a mod Zpos n) 0) as [E|N].
  - rewrite E. reflexivity.
  - apply binary_normalize_exact; lia.
Qed.


(** *** Which operations give a number *)

(** Zeros and other finite values; the positive values, infinity
    included; the finite values other than zero. *)
Definition SFfinite (x : spec_float) : Prop :=
  match x with S754_zero _ | S754_finite _ _ _ => True | _ => False end.

Definition SFpositive (x : spec_float) : Prop :=
  match x with
  | S754_finite false _ _ | S754_infinity false => True
  | _ => False
  end.

Definition SFregular (x : spec_float) : Prop :=
  match x with S754_finite _ _ _ => True | _ => False end.


Lemma SFmul_number (x y : spec_float) :
  x <> S754_nan -> SFregular y -> SFmul prec emax x y <> S754_nan.
Proof.
  destruct y as [sy|sy| |sy my ey]; cbn [SFregular]; try contradiction.
  intros Hx _. destruct x as [sx|sx| |sx mx ex]; cbn [SFmul];
    try discriminate; try congruence.
  apply binary_round_aux_number. lia.
Qed.

Lemma SFdiv_core_nonneg (m1 e1 m2 e2 : Z) :
  0 < m1 -> 0 < m2 ->
  0 <= fst (fst (SFdiv_core_binary prec emax m1 e1 m2 e2)).
Proof.
  intros H1 H2. unfold SFdiv_core_binary. cbv zeta.
  set (e' := Z.min _ _). set (s := e1 - e2 - e').
  set (m' := match s with Z.pos _ => Z.shiftl m1 s | 0 => m1 | Z.neg _ => 0 end).
  assert (Hm : 0 <= m').
  { unfold m'. destruct s; try lia. apply Z.shiftl_nonneg. lia. }
  pose proof (Z.div_pos m' m2 Hm H2) as Q. unfold Z.div in Q.
  destruct (Z.div_eucl m' m2) as [q r]. exact Q.
Qed.

Lemma SFdiv_number (x y : spec_float) :
  SFfinite x -> SFpositive y -> SFdiv prec emax x y <> S754_nan.
Proof.
  destruct x as [sx|sx| |sx mx ex]; cbn [SFfinite]; try contradiction;
    (destruct y as [sy|[]| |[] my ey]; cbn [SFpositive]; try contradiction);
    intros _ _; cbn [SFdiv]; try discriminate.
  pose proof (@SFdiv_core_nonneg (Zpos mx) ex (Zpos my) ey eq_refl eq_refl) as Q.
  destruct (SFdiv_core_binary prec emax (Zpos mx) ex (Zpos my) ey)
    as [[mz ez] lz].
  apply binary_round_aux_number. exact Q.
Qed.



End Rounding.

(* ================================================================== *)
(** ** Numbers: classes, and exact integer arithmetic *)

Module NumberFacts.

Import JS JSFacts Rounding.
Local Open Scope float_scope.

(** Integers below 2^53 are numbers as they are; their sums, differences
    and remainders are exact as long as they stay below 2^53. *)
Lemma of_Z_canon (z : Z) :
  (0 <= z < 2 ^ 53)%Z -> Prim2SF (JS.of_Z z) = canon z.
Proof.
  intros H. unfold JS.of_Z. rewrite of_uint63_spec, Uint63.of_Z_spec.
  rewrite Z.mod_small by (change Uint63Axioms.wB with (2 ^ 63)%Z; lia).
  destruct z as [|p|p]; try lia; [reflexivity|].
  replace (Zpos p) with (Zpos p * 2 ^ 0)%Z at 1 by lia.
  apply binary_normalize_exact; lia.
Qed.

Lemma of_Z_add (a b : Z) :
  (0 <= a)%Z -> (0 <= b)%Z -> (a + b < 2 ^ 53)%Z ->
  JS.of_Z a + JS.of_Z b = JS.of_Z (a + b).
Proof.
  intros Ha Hb Hs. apply Prim2SF_inj.
  rewrite add_spec, !of_Z_canon by lia. apply SFadd_canon; assumption.
Qed.

Lemma of_Z_sub (a b : Z) :
  (0 <= b <= a)%Z -> (a < 2 ^ 53)%Z ->
  JS.of_Z a - JS.of_Z b = JS.of_Z (a - b).
Proof.
  intros Hb Ha. apply Prim2SF_inj.
  rewrite sub_spec, !of_Z_canon by lia. apply SFsub_canon; assumption.
Qed.

Lemma of_Z_rem (a n : Z) :
  (0 <= a < 2 ^ 53)%Z -> (0 < n < 2 ^ 53)%Z ->
  JS.rem (JS.of_Z a) (JS.of_Z n) = JS.of_Z (Z.rem a n).
Proof.
  intros Ha Hn. unfold JS.rem.
  rewrite !of_Z_canon by lia. rewrite SFrem_canon by assumption.
  pose proof (Z.rem_bound_pos a n ltac:(lia) ltac:(lia)) as B.
  rewrite <- of_Z_canon by lia. apply SF2Prim_Prim2SF.
Qed.

Lemma of_Z_regular (z : Z) :
  (0 < z < 2 ^ 53)%Z -> SFpositive (Prim2SF (JS.of_Z z)) /\ SFregular (Prim2SF (JS.of_Z z)).
Proof.
  intros H. rewrite of_Z_canon by lia. destruct z; try lia. cbn. auto.
Qed.

Lemma of_Z_finite (z : Z) :
  (0 <= z < 2 ^ 53)%Z -> SFfinite (Prim2SF (JS.of_Z z)).
Proof.
  intros H. rewrite of_Z_canon by lia. destruct z; try lia; exact I.
Qed.


Lemma positive_spec (a : number) :
  (0 <? a) = true <-> SFpositive (Prim2SF a).
Proof.
  rewrite ltb_spec. change (Prim2SF 0) with (S754_zero false).
  unfold SFltb. destruct (Prim2SF a) as [s|[]| |[] m e]; cbn;
    split; try discriminate; try contradiction; auto.
Qed.


Lemma ltb_below_infinity (a hi : number) :
  (a <? hi) = true -> Prim2SF a <> S754_infinity false.
Proof.
  rewrite ltb_spec. unfold SFltb. intros H E. rewrite E in H.
  destruct (Prim2SF hi) as [s|[]| |s m e]; cbn in H; discriminate.
Qed.

Lemma positive_leb (lo a : number) :
  (0 <? lo) = true -> (lo <=? a) = true -> (0 <? a) = true.
Proof.
  intros Hlo Ha. apply positive_spec in Hlo. apply positive_spec.
  rewrite leb_spec in Ha. unfold SFleb in Ha.
  destruct (Prim2SF lo) as [sl|[]| |[] ml el]; cbn in Hlo; try contradiction;
    destruct (Prim2SF a) as [s|[]| |[] m e]; cbn in Ha; try discriminate;
    exact I.
Qed.

(** A number between two positive finite bounds is finite and not zero. *)
Lemma regular_between (lo hi a : number) :
  (0 <? lo) = true -> (lo <=? a) = true -> (a <? hi) = true ->
  SFregular (Prim2SF a).
Proof.
  intros Hlo Ha Hhi.
  pose proof (proj1 (positive_spec a) (positive_leb Hlo Ha)) as P.
  pose proof (ltb_below_infinity Hhi) as F.
  destruct (Prim2SF a) as [s|[]| |[] m e]; cbn in P; try contradiction;
    try congruence; exact I.
Qed.

Lemma mul_number (a b : number) :
  is_nan a = false -> SFregular (Prim2SF b) -> is_nan (a * b) = false.
Proof.
  intros Ha Hb. apply is_nan_false in Ha. apply is_nan_false.
  rewrite mul_spec. apply SFmul_number; assumption.
Qed.


Lemma div_number (a b : number) :
  SFfinite (Prim2SF a) -> SFpositive (Prim2SF b) -> is_nan (a / b) = false.
Proof.
  intros Ha Hb. apply is_nan_false. rewrite div_spec.
  apply SFdiv_number; assumption.
Qed.


(** [Math.min] and [Math.max] yield NaN exactly from a NaN argument. *)
Lemma Math_min_nan (a b : number) :
  is_nan (Math_min a b) = is_nan a || is_nan b.
Proof.
  unfold Math_min. destruct (is_nan a) eqn:Ha; [reflexivity|].
  destruct (is_nan b) eqn:Hb; [reflexivity|]. cbn [orb].
  branches a b; assumption.
Qed.

Lemma Math_max_nan (a b : number) :
  is_nan (Math_max a b) = is_nan a || is_nan b.
Proof.
  unfold Math_max. destruct (is_nan a) eqn:Ha; [reflexivity|].
  destruct (is_nan b) eqn:Hb; [reflexivity|]. cbn [orb].
  branches a b; assumption.
Qed.

End NumberFacts.

(* ================================================================== *)
(** ** Properties of [getFilenameSeed] *)

Module SeedFacts.

Import JS Seed.
Local Open Scope string_scope.

(** The hash is 32-bit FNV-1a: the published test vectors. *)
Example hash_empty : hash "" (ushr0 FNV_basis) = 0x811c9dc5%Z.
Proof. reflexivity. Qed.

Example hash_a : hash "a" (ushr0 FNV_basis) = 0xe40c292c%Z.
Proof. reflexivity. Qed.

Example hash_foobar : hash "foobar" (ushr0 FNV_basis) = 0xbf9cf968%Z.
Proof. reflexivity. Qed.

(** Query, fragment and directories are dropped; a name that comes out
    empty falls back to the whole string. *)
Example filename_url :
  filename "/assets/photos/event/img-01.jpg?v=3#top" = "img-01.jpg".
Proof. reflexivity. Qed.

Example filename_directory : filename "/assets/photos/" = "/assets/photos/".
Proof. reflexivity. Qed.

Lemma ushr0_range (z : Z) : (0 <= ushr0 z < 2 ^ 32)%Z.
Proof. unfold ushr0, ToUint32. apply Z.mod_pos_bound. reflexivity. Qed.

(** The hash stays an unsigned 32-bit integer. *)
Lemma hash_range (name : string) :
  forall h, (0 <= h < 2 ^ 32)%Z -> (0 <= hash name h < 2 ^ 32)%Z.
Proof.
  induction name as [|c r IH]; intros h H; [exact H|].
  cbn [hash]. apply IH. unfold mix. apply ushr0_range.
Qed.

(** The seed of a name is one of the 100000 values [k / 100000]. *)
Lemma getFilenameSeed_residue (s : string) :
  exists k, (0 <= k < 100000)%Z
            /\ getFilenameSeed s = (JS.of_Z k / 100000)%float.
Proof.
  unfold getFilenameSeed. eexists. split; [|reflexivity].
  pose proof (hash_range (filename s) (ushr0_range FNV_basis)) as H.
  rewrite Z.rem_mod_nonneg by lia. apply Z.mod_pos_bound. reflexivity.
Qed.

End SeedFacts.

(* ================================================================== *)
(** ** Properties of [computeRows] *)

Module LayoutFacts.

Import JS Seed Layout JSFacts SeedFacts.
Local Open Scope float_scope.

(** The input items a row holds, in order. *)
Definition row_items (r : JustifiedRow) : list JustifiedItem :=
  map item (items r).

(** Everything the loop has placed so far: the closed rows, then the open
    one. *)
Definition placed (st : LoopState) : list JustifiedItem :=
  List.concat (map row_items (rows st)) ++ currentRow st.

(** Three square items, as in the worked example of the specification. *)
Definition square (name : string) (i : nat) : JustifiedItem :=
  {| src := name; alt := name; category := "event"%string;
     aspectRatio := 1; __globalIndex := Some i |}.

Definition three_squares : list JustifiedItem :=
  [square "/assets/a.jpg" 0; square "/assets/b.jpg" 1; square "/assets/c.jpg" 2].

(** A panorama alone in a narrow container. *)
Definition panorama : JustifiedItem :=
  {| src := "/assets/pano.jpg"; alt := "pano"; category := "landscape";
     aspectRatio := 3.5; __globalIndex := Some 0%nat |}.

(** The sum of the rendered widths of a row, accumulated from 0. *)
Definition sumWidths (r : JustifiedRow) : number :=
  fold_left (fun acc x => acc + width x) (items r) 0.

(** What the row of three squares looks like when the first item's seed is
    [k / 100000]: the cap 1.2 * (880 / 3) is not reached, so the height is
    the jittered target height, each width equals it, and it stays within
    6% of 200. *)
Definition squares_check (k : Z) : bool :=
  let t := 200 * (1 + (JS.of_Z k / 100000 - 0.5) * 0.12) in
  PrimFloat.Leibniz.eqb
    (Math_max 80 (Math_min t (fillHeight 900 10 three_squares * 1.2))) t
  && PrimFloat.Leibniz.eqb (1 * t) t
  && (188 <=? t) && (t <=? 212)
  && (564 <=? 0 + t + t + t) && (0 + t + t + t <=? 636).

Definition residues : nat := Z.to_nat 100000.

(** [check] holds on [k, k+1, ..., k + fuel - 1]. *)
Fixpoint all_from (check : Z -> bool) (fuel : nat) (k : Z) : bool :=
  match fuel with
  | O => true
  | S fuel' => check k && all_from check fuel' (k + 1)
  end.

Section Params.

Variables (containerWidth gap baseRowHeight : number).

Local Abbreviation makeRow := (makeRow containerWidth gap baseRowHeight).
Local Abbreviation pushRow := (pushRow containerWidth gap baseRowHeight).
Local Abbreviation step := (step containerWidth gap baseRowHeight).
Local Abbreviation loop := (loop containerWidth gap baseRowHeight).
Local Abbreviation overflows := (overflows containerWidth gap baseRowHeight).
Local Abbreviation computeRows := (computeRows containerWidth gap baseRowHeight).

(** Every closed row was built by [pushRow] from a non-empty run of
    items. *)
Definition built (r : JustifiedRow) : Prop :=
  exists first rest, r = makeRow first (first :: rest).

(** The running estimate, in the specification's words: the sum of
    [aspectRatio * baseRowHeight] over the open row (accumulated from 0 in
    item order), plus the candidate's own width, plus one gap per item
    already in the row. *)
Definition widthAtBase (row : list JustifiedItem) : number :=
  fold_left (fun w it => w + aspectRatio it * baseRowHeight) row 0.

Definition runningEstimate (row : list JustifiedItem)
           (next : JustifiedItem) : number :=
  widthAtBase row + aspectRatio next * baseRowHeight
  + gap * JS.of_nat (List.length row).

Definition closesRow (row : list JustifiedItem) (next : JustifiedItem)
  : bool :=
  match row with
  | [] => false
  | _ :: _ => JS.gt (runningEstimate row next) (containerWidth * 1.15)
  end.

(** [currentWidthAtBase] is the width at base height of the open row. *)
Definition tracked (st : LoopState) : Prop :=
  currentWidthAtBase st = widthAtBase (currentRow st).

Lemma row_items_makeRow first l : row_items (makeRow first l) = l.
Proof.
  unfold row_items, makeRow. simpl. rewrite map_map. simpl. apply map_id.
Qed.

Lemma rows_pushRow first rest st :
  rows (pushRow (first :: rest) st)
  = rows st ++ [makeRow first (first :: rest)].
Proof. reflexivity. Qed.

(** The two cases of one loop iteration. *)
Lemma step_closes st it first rest :
  currentRow st = first :: rest ->
  overflows st it = true ->
  step st it =
    {| rows := rows st ++ [makeRow first (first :: rest)];
       currentRow := [it];
       currentWidthAtBase := 0 + aspectRatio it * baseRowHeight;
       rowIndex := S (rowIndex st) |}.
Proof.
  intros Hc Ho. unfold Layout.step. rewrite Ho, Hc. reflexivity.
Qed.

Lemma step_extends st it :
  overflows st it = false ->
  step st it =
    {| rows := rows st;
       currentRow := currentRow st ++ [it];
       currentWidthAtBase :=
         currentWidthAtBase st + aspectRatio it * baseRowHeight;
       rowIndex := rowIndex st |}.
Proof.
  intros Ho. unfold Layout.step. rewrite Ho. reflexivity.
Qed.

Lemma overflows_nonempty st it :
  overflows st it = true ->
  exists first rest, currentRow st = first :: rest.
Proof.
  unfold Layout.overflows. intros H. apply andb_true_iff in H.
  destruct H as [H _]. destruct (currentRow st) as [|f r]; [discriminate|eauto].
Qed.

Lemma placed_step st it : placed (step st it) = placed st ++ [it].
Proof.
  destruct (overflows st it) eqn:Ho.
  - destruct (overflows_nonempty _ _ Ho) as (f & r & Hc).
    rewrite (step_closes _ _ Hc Ho). unfold placed.
    cbn [rows currentRow]. rewrite map_app, concat_app.
    cbn [map List.concat].
    rewrite row_items_makeRow, app_nil_r, Hc, <- app_assoc. reflexivity.
  - rewrite (step_extends _ _ Ho). unfold placed. cbn [rows currentRow].
    rewrite app_assoc. reflexivity.
Qed.

Lemma placed_loop its : forall st, placed (loop its st) = placed st ++ its.
Proof.
  induction its as [|it its IH]; intros st; simpl.
  - rewrite app_nil_r. reflexivity.
  - unfold Layout.loop in *. simpl. rewrite IH, placed_step, <- app_assoc.
    reflexivity.
Qed.

(** Past the guard, [computeRows] is the loop followed by the last
    [pushRow]. *)
Lemma computeRows_run its :
  (containerWidth <=? 0) = false -> its <> [] ->
  computeRows its =
    let st := loop its (init) in
    match currentRow st with
    | [] => rows st
    | first :: rest => rows st ++ [makeRow first (first :: rest)]
    end.
Proof.
  intros Hw Hi. unfold Layout.computeRows, JS.le. rewrite Hw.
  destruct its as [|x xs]; [congruence|]. simpl orb. cbv iota.
  cbv zeta. destruct (currentRow (loop (x :: xs) init)); reflexivity.
Qed.

Lemma built_step st it :
  Forall built (rows st) -> Forall built (rows (step st it)).
Proof.
  intros H. destruct (overflows st it) eqn:Ho.
  - destruct (overflows_nonempty _ _ Ho) as (f & r & Hc).
    rewrite (step_closes _ _ Hc Ho). cbn [rows].
    apply Forall_app. split; [exact H|].
    constructor; [|constructor]. exists f, r. reflexivity.
  - rewrite (step_extends _ _ Ho). exact H.
Qed.

Lemma built_loop its :
  forall st, Forall built (rows st) -> Forall built (rows (loop its st)).
Proof.
  induction its as [|it its IH]; intros st H; [exact H|].
  unfold Layout.loop in *. simpl. apply IH, built_step, H.
Qed.

Lemma computeRows_built its : Forall built (computeRows its).
Proof.
  unfold Layout.computeRows.
  destruct (JS.le containerWidth 0 || (List.length its =? 0)%nat);
    [constructor|].
  cbv zeta.
  pose proof (@built_loop its init (Forall_nil _)) as H.
  destruct (currentRow (loop its init)) as [|f r] eqn:Hc; [exact H|].
  cbn [List.length Nat.eqb negb]. rewrite rows_pushRow.
  apply Forall_app. split; [exact H|].
  constructor; [|constructor]. exists f, r. reflexivity.
Qed.

Lemma tracked_step st it : tracked st -> tracked (step st it).
Proof.
  unfold tracked. intros H. destruct (overflows st it) eqn:Ho.
  - destruct (overflows_nonempty _ _ Ho) as (f & r & Hc).
    rewrite (step_closes _ _ Hc Ho). reflexivity.
  - rewrite (step_extends _ _ Ho). cbn [currentRow currentWidthAtBase].
    unfold widthAtBase. rewrite fold_left_app. cbn [fold_left].
    unfold widthAtBase in H. rewrite <- H. reflexivity.
Qed.

Lemma tracked_loop its : forall st, tracked st -> tracked (loop its st).
Proof.
  induction its as [|it its IH]; intros st H; [exact H|].
  unfold Layout.loop in *. simpl. apply IH, tracked_step, H.
Qed.

Lemma overflows_closesRow st it :
  tracked st -> overflows st it = closesRow (currentRow st) it.
Proof.
  unfold tracked, Layout.overflows, closesRow, runningEstimate.
  intros ->. destruct (currentRow st); reflexivity.
Qed.

End Params.

(** C1.  For every container width > 0 and every non-empty item list,
    the rows of [computeRows], concatenated in order, are exactly the
    input list: every item is placed in exactly one row, none is dropped
    and none is duplicated. *)
Theorem computeRows_places_every_item
        (containerWidth gap baseRowHeight : number)
        (its : list JustifiedItem) :
  (0 <? containerWidth) = true ->
  its <> [] ->
  List.concat (map row_items (computeRows containerWidth gap baseRowHeight its))
  = its.
Proof.
  intros Hw Hi. apply ltb_not_leb in Hw.
  rewrite (computeRows_run gap baseRowHeight Hw Hi). cbv zeta.
  pose proof (placed_loop containerWidth gap baseRowHeight its init) as P.
  unfold placed in P. simpl in P.
  destruct (currentRow _) as [|f r] eqn:Hc.
  - rewrite app_nil_r in P. exact P.
  - rewrite map_app, concat_app. cbn [map List.concat].
    rewrite row_items_makeRow, app_nil_r. exact P.
Qed.

Lemma computeRows_places_every_item_witness :
  (0 <? 900) = true /\ three_squares <> [] /\
  List.concat (map row_items (computeRows 900 10 200 three_squares))
  = three_squares.
Proof.
  assert (H1 : (0 <? 900) = true) by reflexivity.
  assert (H2 : three_squares <> []) by discriminate.
  split; [exact H1|]. split; [exact H2|].
  exact (@computeRows_places_every_item 900 10 200 three_squares H1 H2).
Defined.

(** C9.  [computeRows] returns the empty row list, without error, when
    the container width is [<= 0] or the item list is empty. *)
Theorem computeRows_degenerate
        (containerWidth gap baseRowHeight : number)
        (its : list JustifiedItem) :
  (containerWidth <=? 0) = true \/ its = [] ->
  computeRows containerWidth gap baseRowHeight its = [].
Proof.
  intros [H|H]; unfold computeRows, JS.le.
  - rewrite H. reflexivity.
  - subst its. simpl. rewrite orb_true_r. reflexivity.
Qed.

Lemma computeRows_degenerate_witness :
  computeRows 0 14 200 three_squares = []
  /\ computeRows (-320) 14 200 three_squares = []
  /\ computeRows 900 14 260 [] = [].
Proof.
  split; [|split].
  - apply computeRows_degenerate. left. reflexivity.
  - apply computeRows_degenerate. left. reflexivity.
  - apply computeRows_degenerate. right. reflexivity.
Defined.

(** C4, as the code has it.  The floor of 80 is applied last, so it wins
    over the cap: a row's final height exceeds 1.2 times its exact-fill
    height only when it is exactly the floor 80, and it is within the cap
    whenever the cap itself is at least 80. *)
Theorem row_height_cap
        (containerWidth gap baseRowHeight : number)
        (its : list JustifiedItem) :
  Forall (fun r =>
            let cap := fillHeight containerWidth gap (row_items r) * 1.2 in
            ((cap <? row_height r) = true -> row_height r = 80)
            /\ ((80 <=? cap) = true -> is_nan (row_height r) = false ->
                (row_height r <=? cap) = true))
         (computeRows containerWidth gap baseRowHeight its).
Proof.
  eapply Forall_impl; [|apply computeRows_built].
  intros r (f & rest & ->). rewrite row_items_makeRow.
  cbn [row_height makeRow]. unfold finalHeight.
  set (cap := fillHeight _ _ _ * 1.2).
  set (t := targetRowHeight _ _).
  cbv zeta.
  assert (K : is_nan (Math_max 80 (Math_min t cap)) = false ->
              Math_max 80 (Math_min t cap) = 80
              \/ (Math_max 80 (Math_min t cap) <=? cap) = true).
  { intros N. destruct (Math_max_number _ _ N) as (_ & Nm & _ & _ & [E|E]).
    - left. exact E.
    - right. rewrite E.
      destruct (Math_min_number _ _ Nm) as (_ & _ & _ & H & _). exact H. }
  split.
  - intros H. destruct (K (ltb_not_nan_r H)) as [E|L]; [exact E|].
    apply leb_not_ltb in L. congruence.
  - intros Hc N. destruct (K N) as [E|L]; [|exact L].
    rewrite E. exact Hc.
Qed.

(** C4 as stated fails: the single-item row of a 3.5:1 panorama in a
    200px container gets the floor height 80, above 1.2 times its
    exact-fill height.  The name [pano.jpg] hashes to 3541982560, so the
    seed is 0.8256 and the target height 207.8144; the exact-fill height is
    200 / 3.5, about 57.14, and the cap about 68.57. *)
Lemma row_height_cap_counterexample :
  exists r,
    computeRows 200 14 200 [panorama] = [r]
    /\ row_items r = [panorama]
    /\ hash "pano.jpg" (ushr0 FNV_basis) = 3541982560%Z
    /\ targetRowHeight 200 panorama = 207.81440000000001
    /\ fillHeight 200 14 (row_items r) = 57.142857142857146
    /\ (fillHeight 200 14 (row_items r) * 1.2 <? 69) = true
    /\ row_height r = 80
    /\ (row_height r <=? fillHeight 200 14 (row_items r) * 1.2) = false.
Proof.
  eexists. split; [vm_compute; reflexivity|].
  repeat split; vm_compute; reflexivity.
Qed.

(** *** The worked example: three square items in a 900px container *)

Lemma all_from_spec (check : Z -> bool) (fuel : nat) :
  forall k0 k, all_from check fuel k0 = true ->
               (k0 <= k < k0 + Z.of_nat fuel)%Z -> check k = true.
Proof.
  induction fuel as [|fuel IH]; intros k0 k H R; [lia|].
  cbn [all_from] in H. apply andb_true_iff in H. destruct H as [H0 H1].
  destruct (Z.eq_dec k k0) as [->|Hne]; [exact H0|].
  apply (IH (k0 + 1)%Z); [exact H1|lia].
Qed.

Lemma Z_of_residues : Z.of_nat residues = 100000%Z.
Proof. vm_compute. reflexivity. Qed.

Lemma squares_check_all : all_from squares_check residues 0 = true.
Proof. vm_compute. reflexivity. Qed.

Lemma squares_one_row (a b c : JustifiedItem) :
  aspectRatio a = 1 -> aspectRatio b = 1 -> aspectRatio c = 1 ->
  computeRows 900 10 200 [a; b; c] = [makeRow 900 10 200 a [a; b; c]].
Proof.
  intros Ha Hb Hc.
  rewrite computeRows_run; [|reflexivity|discriminate].
  unfold loop. cbn [fold_left].
  rewrite (step_extends 900 10 200 init a) by reflexivity.
  cbn [rows currentRow currentWidthAtBase rowIndex init app].
  rewrite (step_extends 900 10 200 _ b)
    by (unfold overflows; cbn [currentRow currentWidthAtBase List.length];
        rewrite Ha, Hb; vm_compute; reflexivity).
  cbn [rows currentRow currentWidthAtBase rowIndex app].
  rewrite (step_extends 900 10 200 _ c)
    by (unfold overflows; cbn [currentRow currentWidthAtBase List.length];
        rewrite Ha, Hb, Hc; vm_compute; reflexivity).
  reflexivity.
Qed.

(** C3, as the code has it.  The three square items form exactly one row;
    its height is the jittered target height [200 * jitter] (between 188
    and 212, below the cap of 1.2 * 880 / 3), every item is as wide as the
    row is high, and the widths sum to between 564 and 636: the row is not
    stretched to the 880 the container offers. *)
Theorem three_squares_row (a b c : JustifiedItem) :
  aspectRatio a = 1 -> aspectRatio b = 1 -> aspectRatio c = 1 ->
  let h := targetRowHeight 200 a in
  let sized x :=
    {| item := x; width := h; height := h; globalIndex := __globalIndex x |} in
  let row := {| items := [sized a; sized b; sized c]; row_height := h |} in
  computeRows 900 10 200 [a; b; c] = [row]
  /\ (188 <=? h) = true /\ (h <=? 212) = true
  /\ (564 <=? sumWidths row) = true /\ (sumWidths row <=? 636) = true.
Proof.
  intros Ha Hb Hc. cbv zeta.
  rewrite (squares_one_row a b c Ha Hb Hc).
  destruct (getFilenameSeed_residue (src a)) as (k & Hk & Hs).
  assert (K : squares_check k = true).
  { apply (@all_from_spec squares_check residues 0%Z k squares_check_all).
    rewrite Z_of_residues. lia. }
  unfold squares_check in K. cbv zeta in K.
  repeat (apply andb_true_iff in K; destruct K as [K ?]).
  apply FloatAxioms.Leibniz.eqb_spec in K.
  match goal with E : PrimFloat.Leibniz.eqb (1 * _) _ = true |- _ =>
    apply FloatAxioms.Leibniz.eqb_spec in E; rename E into E1 end.
  assert (T : targetRowHeight 200 a
              = 200 * (1 + (JS.of_Z k / 100000 - 0.5) * 0.12)).
  { unfold targetRowHeight. cbv zeta. rewrite Hs. reflexivity. }
  assert (F : finalHeight 900 10 200 a [a; b; c] = targetRowHeight 200 a).
  { unfold finalHeight. rewrite T.
    replace (fillHeight 900 10 [a; b; c])
      with (fillHeight 900 10 three_squares); [exact K|].
    unfold fillHeight, totalAspect. cbn [fold_left List.length].
    rewrite Ha, Hb, Hc. reflexivity. }
  unfold makeRow, sizeItem, sumWidths. cbv zeta.
  cbn [map items width fold_left]. rewrite F, Ha, Hb, Hc, T, E1.
  repeat split; assumption.
Qed.

Lemma three_squares_row_witness :
  let h := targetRowHeight 200 (square "/assets/a.jpg" 0) in
  let sized x :=
    {| item := x; width := h; height := h; globalIndex := __globalIndex x |} in
  let row := {| items := map sized three_squares; row_height := h |} in
  computeRows 900 10 200 three_squares = [row]
  /\ (188 <=? h) = true /\ (h <=? 212) = true
  /\ (564 <=? sumWidths row) = true /\ (sumWidths row <=? 636) = true.
Proof.
  exact (@three_squares_row (square "/assets/a.jpg" 0)
           (square "/assets/b.jpg" 1) (square "/assets/c.jpg" 2)
           eq_refl eq_refl eq_refl).
Defined.

(** C3 as stated fails: the three squares do form one row, but their
    widths sum to about 572, not to 900 - 2 * 10 = 880.  The name [a.jpg]
    hashes to 1693710529, so the seed is 0.10529 and the row height
    200 * (1 + (0.10529 - 0.5) * 0.12) = 190.52696, below the cap of about
    352. *)
Lemma three_squares_sum_counterexample :
  exists row,
    computeRows 900 10 200 three_squares = [row]
    /\ List.length (items row) = 3%nat
    /\ hash "a.jpg" (ushr0 FNV_basis) = 1693710529%Z
    /\ row_height row = 190.52696
    /\ map width (items row) = [190.52696; 190.52696; 190.52696]
    /\ sumWidths row = 571.58087999999998
    /\ (sumWidths row <? 879) = true.
Proof.
  eexists. split; [vm_compute; reflexivity|].
  repeat split; vm_compute; reflexivity.
Qed.

End LayoutFacts.

(* ================================================================== *)
(** ** Properties of the aspect-ratio resolution *)

Module AspectFacts.

Import JS Seed Layout Aspect.
Local Open Scope float_scope.

(** What [enrich] stores at index [i] once the ratio is known. *)
Definition enriched_with (i : nat) (it : ImageItem) (ratio : number)
  : JustifiedItem :=
  {| Layout.src := src it;
     Layout.alt := alt it;
     Layout.category := category it;
     aspectRatio := tweaked (src it) ratio;
     __globalIndex := Some i |}.

Lemma loadImageAspect_resolves (browser : Browser) (s : string) :
  exists ratio, loadImageAspect browser s = resolved ratio.
Proof.
  unfold loadImageAspect.
  destruct (browser s) as [|w h]; [eauto|].
  destruct (h =? 0)%Z; eauto.
Qed.

Lemma enrichFrom_resolves (browser : Browser) (its : list ImageItem) :
  forall i0, exists es,
    enrichFrom browser i0 its = resolved es
    /\ List.length es = List.length its
    /\ forall i it, nth_error its i = Some it ->
         exists ratio,
           loadImageAspect browser (src it) = resolved ratio
           /\ nth_error es i = Some (enriched_with (i0 + i) it ratio).
Proof.
  induction its as [|x rest IH]; intros i0.
  - exists []. repeat split. intros [|i] it H; discriminate H.
  - destruct (loadImageAspect_resolves browser (src x)) as [r Hr].
    destruct (IH (S i0)) as (es & He & Hl & Hn).
    exists (enriched_with i0 x r :: es). split; [|split].
    + cbn [enrichFrom]. unfold enrich. rewrite Hr, He. reflexivity.
    + cbn [List.length]. rewrite Hl. reflexivity.
    + intros [|i] it H; cbn [nth_error] in *.
      * injection H as <-. exists r. rewrite Nat.add_0_r. auto.
      * destruct (Hn i it H) as (r' & Hr' & He').
        exists r'. rewrite Nat.add_succ_r. auto.
Qed.

(** C8.  Resolving an aspect ratio never rejects: a failed load and a
    natural height of 0 both resolve to the default ratio 1 (to which the
    per-item tweak and the clamp are then applied), so the batch always
    settles with one enriched item per input item, in order. *)
Theorem resolution_never_rejects (browser : Browser)
        (its : list ImageItem) :
  (forall s, loadImageAspect browser s <> rejected)
  /\ (forall s, browser s = onerror ->
                loadImageAspect browser s = resolved 1)
  /\ (forall s w, browser s = onload w 0 ->
                  loadImageAspect browser s = resolved 1)
  /\ exists enriched,
      enrichAll browser its = resolved enriched
      /\ List.length enriched = List.length its
      /\ forall i it, nth_error its i = Some it ->
           exists e,
             nth_error enriched i = Some e
             /\ Layout.src e = Aspect.src it
             /\ __globalIndex e = Some i
             /\ ((browser (src it) = onerror
                  \/ exists w, browser (src it) = onload w 0) ->
                 aspectRatio e = tweaked (src it) 1).
Proof.
  split; [|split; [|split]].
  - intros s. destruct (loadImageAspect_resolves browser s) as [r ->].
    discriminate.
  - intros s H. unfold loadImageAspect. rewrite H. reflexivity.
  - intros s w H. unfold loadImageAspect. rewrite H. reflexivity.
  - destruct (enrichFrom_resolves browser its 0) as (es & He & Hl & Hn).
    exists es. split; [exact He|]. split; [exact Hl|].
    intros i it H. destruct (Hn i it H) as (r & Hr & Hi).
    exists (enriched_with i it r). repeat split; [exact Hi|].
    intros F. cbn [aspectRatio enriched_with]. f_equal.
    unfold loadImageAspect in Hr.
    destruct F as [F|[w F]]; rewrite F in Hr; cbn in Hr; congruence.
Qed.

End AspectFacts.

(* ================================================================== *)
(** ** Properties of the thumbnail build *)

Module ThumbsFacts.

Import Thumbs.
Local Open Scope string_scope.
Local Open Scope Z_scope.

(** C7.  For an image whose metadata reports the native width, the width
    handed to [resize] for each target [w] of 400, 800 and 1200 is
    [min native w]: never more than the native width.  A native width of
    2000 gives a 1200-variant of width 1200, a native width of 300 gives
    three variants of width 300. *)
Theorem resize_width_is_min (baseName : string) (meta : Metadata)
        (native : Z) :
  width meta = Some native -> 0 < native ->
  map (fun v => (nominal v, target v)) (variants baseName meta)
  = [(400, Z.min native 400); (800, Z.min native 800);
     (1200, Z.min native 1200)]
  /\ Forall (fun v => target v <= native /\ target v <= nominal v)
            (variants baseName meta)
  /\ (native = 2000 ->
      map (fun v => (nominal v, target v)) (variants baseName meta)
      = [(400, 400); (800, 800); (1200, 1200)])
  /\ (native = 300 ->
      map (fun v => (nominal v, target v)) (variants baseName meta)
      = [(400, 300); (800, 300); (1200, 300)]).
Proof.
  intros Hm Hpos.
  assert (O : origWidth meta = native).
  { unfold origWidth. rewrite Hm.
    destruct (native =? 0) eqn:E; [apply Z.eqb_eq in E; lia|reflexivity]. }
  unfold variants, widths. rewrite O. cbn [map nominal target variant].
  split; [reflexivity|]. split; [|split].
  - repeat (apply Forall_cons; [cbn [target nominal variant]; lia|]).
    apply Forall_nil.
  - intros ->. reflexivity.
  - intros ->. reflexivity.
Qed.

Lemma resize_width_is_min_witness :
  map (fun v => (nominal v, target v))
      (variants "DSC_0042" {| width := Some 300 |})
  = [(400, 300); (800, 300); (1200, 300)].
Proof.
  assert (P : 0 < 300) by reflexivity.
  exact (proj2 (proj2 (proj2
    (@resize_width_is_min "DSC_0042" {| width := Some 300 |} 300
                          eq_refl P))) eq_refl).
Defined.

End ThumbsFacts.

(* ================================================================== *)
(** ** Properties of [lowerBound] *)

Module VirtualFacts.

Import JS JSFacts Virtual.
Local Open Scope Z_scope.

(** Ascending order.  Taking [i = j], every element is [<=] itself, which
    rules NaN out. *)
Definition ascending (arr : list number) : Prop :=
  forall i j a b, (i <= j)%nat ->
                  nth_error arr i = Some a -> nth_error arr j = Some b ->
                  JS.le a b = true.

(** [r] is the least index whose element is [>= target], or the length of
    the array when there is none. *)
Definition least_ge (arr : list number) (target : number) (r : Z) : Prop :=
  0 <= r <= Z.of_nat (List.length arr)
  /\ (forall i a, 0 <= i < r -> get arr i = Some a -> JS.ge a target = false)
  /\ (r < Z.of_nat (List.length arr) ->
      exists a, get arr r = Some a /\ JS.ge a target = true).

(** The cumulative row offsets of four rows, as the gallery builds them. *)
Definition offsets : list number :=
  [0; 274; 548; 822; 1082]%float.

Lemma ushr1_half (n : Z) : 0 <= n < 2 ^ 32 -> ushr1 n = n / 2.
Proof.
  intros H. unfold ushr1. rewrite Z.mod_small by exact H.
  rewrite Z.shiftr_div_pow2 by lia. reflexivity.
Qed.

Lemma get_some (arr : list number) (i : Z) (a : number) :
  get arr i = Some a -> 0 <= i /\ nth_error arr (Z.to_nat i) = Some a.
Proof.
  unfold get. destruct (i <? 0) eqn:E; [discriminate|].
  apply Z.ltb_ge in E. auto.
Qed.

Lemma get_in_range (arr : list number) (i : Z) :
  0 <= i < Z.of_nat (List.length arr) -> exists a, get arr i = Some a.
Proof.
  intros H. unfold get.
  destruct (i <? 0) eqn:E; [apply Z.ltb_lt in E; lia|].
  destruct (nth_error arr (Z.to_nat i)) as [a|] eqn:N; [eauto|].
  apply nth_error_None in N. lia.
Qed.

Lemma ascending_get (arr : list number) (i j : Z) (a b : number) :
  ascending arr -> i <= j ->
  get arr i = Some a -> get arr j = Some b -> JS.le a b = true.
Proof.
  intros S Hij Hi Hj.
  apply get_some in Hi. apply get_some in Hj.
  destruct Hi as [Pi Hi], Hj as [Pj Hj].
  apply (S (Z.to_nat i) (Z.to_nat j)); [lia|exact Hi|exact Hj].
Qed.

Lemma ascending_number (arr : list number) (i : Z) (a : number) :
  ascending arr -> get arr i = Some a -> is_nan a = false.
Proof.
  intros S Hi. apply (@leb_not_nan_l a a).
  exact (@ascending_get arr i i a a S (Z.le_refl i) Hi Hi).
Qed.

Section Search.

Variables (arr : list number) (target : number).
Hypothesis arr_ascending : ascending arr.
Hypothesis arr_length : Z.of_nat (List.length arr) <= 2 ^ 31.

(** The loop invariant: everything left of [lo] is below the target,
    nothing from [hi] on is. *)
Definition bracket (lo hi : Z) : Prop :=
  0 <= lo <= hi /\ hi <= Z.of_nat (List.length arr)
  /\ (forall i a, 0 <= i < lo -> get arr i = Some a ->
                  JS.lt a target = true)
  /\ (forall i a, hi <= i -> get arr i = Some a ->
                  JS.lt a target = false).

(** When the target is a number, the point where the bracket closes is
    the least index whose element is [>= target]. *)
Lemma bracket_closed (lo : Z) :
  bracket lo lo -> is_nan target = false -> least_ge arr target lo.
Proof.
  intros (R & L & B & A) target_number. split; [lia|]. split.
  - intros i a Hi G. apply ltb_not_leb. exact (B i a Hi G).
  - intros Hlt. destruct (@get_in_range arr lo ltac:(lia)) as [a G].
    exists a. split; [exact G|].
    apply not_ltb_leb;
      [exact (@ascending_number arr lo a arr_ascending G)
      |exact target_number|].
    exact (A lo a (Z.le_refl lo) G).
Qed.

Lemma bracket_mid (lo hi : Z) :
  bracket lo hi -> lo < hi ->
  let mid := ushr1 (lo + hi) in
  lo <= mid < hi
  /\ (below arr mid target = true -> bracket (mid + 1) hi)
  /\ (below arr mid target = false -> bracket lo mid).
Proof.
  intros (R & L & B & A) Hlt. cbv zeta.
  rewrite ushr1_half by lia.
  assert (M : lo <= (lo + hi) / 2 < hi).
  { split; [apply Z.div_le_lower_bound; lia
           |apply Z.div_lt_upper_bound; lia]. }
  split; [exact M|].
  destruct (@get_in_range arr ((lo + hi) / 2) ltac:(lia)) as [am G].
  unfold below. rewrite G. split; intros T.
  - split; [lia|]. split; [exact L|]. split; [|exact A].
    intros i a Hi Gi.
    apply (@leb_ltb_trans a am target); [|exact T].
    apply (@ascending_get arr i ((lo + hi) / 2) a am arr_ascending);
      [lia|exact Gi|exact G].
  - split; [lia|]. split; [lia|]. split; [exact B|].
    intros i a Hi Gi.
    destruct (JS.lt a target) eqn:E; [|reflexivity].
    assert (X : JS.lt am target = true).
    { apply (@leb_ltb_trans am a target); [|exact E].
      apply (@ascending_get arr ((lo + hi) / 2) i am a arr_ascending);
        [lia|exact G|exact Gi]. }
    congruence.
Qed.

(** From a bracket no wider than the fuel, the loop ends, on a closed
    bracket. *)
Lemma lowerBound_loop_correct (fuel : nat) :
  forall lo hi,
    bracket lo hi -> hi - lo <= Z.of_nat fuel ->
    exists r, lowerBound_loop fuel arr target lo hi = Some r
              /\ bracket r r.
Proof.
  induction fuel as [|fuel IH]; intros lo hi Br Hf.
  - assert (lo = hi) by (destruct Br as ([? ?] & _); lia). subst hi.
    exists lo. cbn [lowerBound_loop]. rewrite Z.ltb_irrefl.
    split; [reflexivity|exact Br].
  - cbn [lowerBound_loop]. destruct (lo <? hi) eqn:E.
    + apply Z.ltb_lt in E.
      destruct (bracket_mid Br E) as (M & Hup & Hdown). cbv zeta.
      destruct (below arr (ushr1 (lo + hi)) target).
      * apply IH; [apply Hup; reflexivity|lia].
      * apply IH; [apply Hdown; reflexivity|lia].
    + apply Z.ltb_ge in E.
      assert (lo = hi) by (destruct Br as ([? ?] & _); lia). subst hi.
      exists lo. split; [reflexivity|exact Br].
Qed.

Lemma bracket_whole : bracket 0 (Z.of_nat (List.length arr)).
Proof.
  split; [lia|]. split; [lia|]. split.
  - intros i a Hi. lia.
  - intros i a Hi G. apply get_some in G. destruct G as [_ G].
    assert (nth_error arr (Z.to_nat i) <> None) as X by congruence.
    apply nth_error_Some in X. lia.
Qed.

End Search.

(** The search on the offsets of four rows: a viewport edge between two
    offsets, on an offset, before the first and past the last. *)
Example lowerBound_offsets :
  lowerBound 5 offsets 300%float = Some 2
  /\ lowerBound 5 offsets 548%float = Some 2
  /\ lowerBound 5 offsets 0%float = Some 0
  /\ lowerBound 5 offsets 2000%float = Some 5.
Proof. repeat split; reflexivity. Qed.

(** C10, as the code has it.  On an array sorted in ascending order (no
    longer than 2^31, so that [lo + hi] fits the unsigned shift),
    [lowerBound] terminates, within as many iterations as the array is
    long, on the index [r] that splits the array into the elements below
    the target and the others.  When the target is a number, that is the
    least index whose element is [>= target], or the length of the array
    when there is none.  When the target is NaN, no element is below it
    and the result is 0. *)
Theorem lowerBound_least_ge (arr : list number) (target : number)
        (fuel : nat) :
  ascending arr ->
  Z.of_nat (List.length arr) <= 2 ^ 31 ->
  (List.length arr <= fuel)%nat ->
  exists r,
    lowerBound fuel arr target = Some r
    /\ 0 <= r <= Z.of_nat (List.length arr)
    /\ (forall i a, 0 <= i < r -> get arr i = Some a ->
                    JS.lt a target = true)
    /\ (forall i a, r <= i -> get arr i = Some a ->
                    JS.lt a target = false)
    /\ (is_nan target = false -> least_ge arr target r)
    /\ (is_nan target = true -> r = 0).
Proof.
  intros S L F. unfold lowerBound.
  destruct (@lowerBound_loop_correct arr target S L fuel 0
              (Z.of_nat (List.length arr)) (bracket_whole arr target)
              ltac:(lia))
    as (r & Hr & Br).
  exists r. split; [exact Hr|].
  pose proof (bracket_closed S Br) as G.
  destruct Br as (R & Len & B & A).
  split; [lia|]. split; [exact B|]. split; [exact A|].
  split; [exact G|].
  intros N. destruct (Z.eq_dec r 0) as [E|E]; [exact E|].
  destruct (@get_in_range arr 0 ltac:(lia)) as [a Ga].
  pose proof (B 0 a ltac:(lia) Ga) as Lt.
  apply ltb_not_nan_r in Lt. congruence.
Qed.

Lemma offsets_ascending : ascending offsets.
Proof.
  intros i j a b Hij Hi Hj. unfold offsets in *.
  destruct i as [|[|[|[|[|[|i]]]]]]; cbn in Hi; try discriminate Hi;
    injection Hi as <-;
    (destruct j as [|[|[|[|[|[|j]]]]]]; cbn in Hj; try discriminate Hj;
     try lia; injection Hj as <-; reflexivity).
Qed.

Lemma lowerBound_least_ge_witness :
  exists r,
    lowerBound 5 offsets 300%float = Some r
    /\ 0 <= r <= Z.of_nat (List.length offsets)
    /\ (forall i a, 0 <= i < r -> get offsets i = Some a ->
                    JS.lt a 300%float = true)
    /\ (forall i a, r <= i -> get offsets i = Some a ->
                    JS.lt a 300%float = false)
    /\ (is_nan 300%float = false -> least_ge offsets 300%float r)
    /\ (is_nan 300%float = true -> r = 0).
Proof.
  apply (@lowerBound_least_ge offsets 300%float 5%nat offsets_ascending).
  - cbn. lia.
  - cbn. lia.
Defined.

Lemma ge_nan (a : number) : JS.ge a nan = false.
Proof.
  unfold JS.ge. rewrite leb_spec.
  change (Prim2SF nan) with S754_nan. reflexivity.
Qed.

(** C10 as stated fails for the target NaN: no offset is [>= NaN], so the
    claim describes the length of the array, 5, but the search returns
    0. *)
Lemma lowerBound_nan_counterexample :
  ascending offsets
  /\ Z.of_nat (List.length offsets) = 5
  /\ (forall i a, get offsets i = Some a -> JS.ge a nan = false)
  /\ lowerBound 5 offsets nan = Some 0
  /\ ~ least_ge offsets nan 0.
Proof.
  split; [exact offsets_ascending|]. split; [reflexivity|].
  split; [intros i a _; apply ge_nan|]. split; [reflexivity|].
  intros (_ & _ & H). destruct H as (a & _ & Ha); [cbn; lia|].
  rewrite ge_nan in Ha. discriminate.
Qed.

End VirtualFacts.

(* ================================================================== *)
(** ** Strings: splitting at a separator *)

Module StringFacts.

Import Seed.
Local Open Scope string_scope.

(** [s] has an occurrence of [c]. *)
Fixpoint contains (c : ascii) (s : string) : bool :=
  match s with
  | EmptyString => false
  | String c' r => Ascii.eqb c' c || contains c r
  end.

Lemma append_nil_r (s : string) : s ++ "" = s.
Proof.
  induction s as [|c s IH]; [reflexivity|]. cbn [append]. rewrite IH.
  reflexivity.
Qed.

Lemma append_assoc (a b c : string) : (a ++ b) ++ c = a ++ (b ++ c).
Proof.
  induction a as [|x a IH]; [reflexivity|]. cbn [append]. rewrite IH.
  reflexivity.
Qed.

Lemma contains_app (c : ascii) (a b : string) :
  contains c (a ++ b) = contains c a || contains c b.
Proof.
  induction a as [|x a IH]; [reflexivity|].
  cbn [append contains]. rewrite IH. apply orb_assoc.
Qed.

(** Up to the first separator, a prefix without separator is kept. *)
Lemma before_first_app (sep : ascii) (a t : string) :
  contains sep a = false ->
  before_first sep (a ++ t) = a ++ before_first sep t.
Proof.
  induction a as [|x a IH]; intros H; [reflexivity|].
  cbn [contains] in H. apply orb_false_iff in H. destruct H as [Hx Ha].
  cbn [append before_first]. rewrite Hx, (IH Ha). reflexivity.
Qed.

Lemma before_first_clean (sep : ascii) (a : string) :
  contains sep a = false -> before_first sep a = a.
Proof.
  intros H. rewrite <- (append_nil_r a) at 1.
  rewrite (before_first_app sep a "" H). apply append_nil_r.
Qed.

Lemma before_first_cut (sep : ascii) (a t : string) :
  contains sep a = false -> before_first sep (a ++ String sep t) = a.
Proof.
  intros H. rewrite (before_first_app sep a _ H). cbn [before_first].
  rewrite Ascii.eqb_refl. apply append_nil_r.
Qed.

Lemma after_last_aux_clean (sep : ascii) (n : string) :
  contains sep n = false ->
  forall acc, after_last_aux sep n acc = acc ++ n.
Proof.
  induction n as [|x n IH]; intros H acc.
  - cbn [after_last_aux]. symmetry. apply append_nil_r.
  - cbn [contains] in H. apply orb_false_iff in H. destruct H as [Hx Hn].
    cbn [after_last_aux]. rewrite Hx, (IH Hn), append_assoc. reflexivity.
Qed.

Lemma after_last_aux_cut (sep : ascii) (p n : string) :
  forall acc,
    after_last_aux sep (p ++ String sep n) acc = after_last_aux sep n "".
Proof.
  induction p as [|x p IH]; intros acc; cbn [append after_last_aux].
  - rewrite Ascii.eqb_refl. reflexivity.
  - destruct (Ascii.eqb x sep); apply IH.
Qed.

(** After the last separator: what follows it, when that has no
    separator. *)
Lemma after_last_cut (sep : ascii) (p n : string) :
  contains sep n = false -> after_last sep (p ++ String sep n) = n.
Proof.
  intros H. unfold after_last. rewrite after_last_aux_cut.
  apply (after_last_aux_clean sep n H "").
Qed.

Lemma after_last_clean (sep : ascii) (n : string) :
  contains sep n = false -> after_last sep n = n.
Proof.
  intros H. unfold after_last. apply (after_last_aux_clean sep n H "").
Qed.

End StringFacts.

(* ================================================================== *)
(** ** More on [getFilenameSeed]: the hash, the range, the name *)

Module SeedProps.

Import JS Seed JSFacts SeedFacts LayoutFacts StringFacts.
Local Open Scope string_scope.

(** One round of 32-bit FNV-1a, as it is usually written. *)
Definition fnv1a_round (h : Z) (c : ascii) : Z :=
  ((Z.lxor h (charCode c) * 16777619) mod 2 ^ 32)%Z.

Fixpoint fnv1a (name : string) (h : Z) : Z :=
  match name with
  | EmptyString => h
  | String c r => fnv1a r (fnv1a_round h c)
  end.

(** [rest] is empty, or a query or a fragment. *)
Definition query_or_fragment (rest : string) : Prop :=
  rest = "" \/ exists r, rest = String "?" r \/ rest = String "#" r.

(** A file name: not empty, and none of the separators in it. *)
Definition plain_name (name : string) : Prop :=
  name <> ""
  /\ contains "/" name = false
  /\ contains "?" name = false
  /\ contains "#" name = false.

(** The seed as a function of the residue of the hash. *)
Definition seed_in_unit_interval (k : Z) : bool :=
  let seed := (JS.of_Z k / 100000)%float in
  ((0 <=? seed) && (seed <? 1))%float.

Lemma ToInt32_mod (z : Z) : (ToInt32 z mod 2 ^ 32 = z mod 2 ^ 32)%Z.
Proof.
  unfold ToInt32. cbv zeta. destruct (z mod 2 ^ 32 <? 2 ^ 31)%Z.
  - apply Z.mod_mod. lia.
  - replace (z mod 2 ^ 32 - 2 ^ 32)%Z
      with (z mod 2 ^ 32 + (-1) * 2 ^ 32)%Z by lia.
    rewrite Z.mod_add by lia. apply Z.mod_mod. lia.
Qed.

Lemma ushr0_mod (z : Z) : ushr0 z = (z mod 2 ^ 32)%Z.
Proof. unfold ushr0, ToUint32. apply ToInt32_mod. Qed.

Lemma lxor_mod_pow2 (a b n : Z) :
  (0 <= n)%Z ->
  (Z.lxor a b mod 2 ^ n = Z.lxor (a mod 2 ^ n) (b mod 2 ^ n))%Z.
Proof.
  intros Hn. apply Z.bits_inj'. intros k Hk.
  rewrite Z.lxor_spec. destruct (Z.lt_ge_cases k n) as [L|G].
  - rewrite !Z.mod_pow2_bits_low by lia. apply Z.lxor_spec.
  - rewrite !Z.mod_pow2_bits_high by lia. reflexivity.
Qed.

Lemma mix_fnv1a_round (h : Z) (c : ascii) : mix h c = fnv1a_round h c.
Proof.
  unfold mix, fnv1a_round, Math_imul, xor32, FNV_prime.
  rewrite ushr0_mod, ToInt32_mod.
  rewrite Z.mul_mod by lia. rewrite !ToInt32_mod.
  rewrite lxor_mod_pow2 by lia. rewrite !ToInt32_mod.
  rewrite <- lxor_mod_pow2 by lia.
  rewrite <- Z.mul_mod by lia. reflexivity.
Qed.

(** X1.  The three 32-bit operators of the loop body ([^], [Math.imul],
    [>>> 0]) compose into the usual FNV-1a round
    [h = ((h xor code) * 16777619) mod 2^32]: the hash of a name is its
    32-bit FNV-1a hash, whatever the value the loop starts from. *)
Theorem hash_is_fnv1a (name : string) (h : Z) : hash name h = fnv1a name h.
Proof.
  revert h. induction name as [|c r IH]; intros h; [reflexivity|].
  cbn [hash fnv1a]. rewrite mix_fnv1a_round. apply IH.
Qed.

Lemma seed_in_unit_interval_all :
  all_from seed_in_unit_interval residues 0 = true.
Proof. vm_compute. reflexivity. Qed.

(** X2.  [getFilenameSeed] maps every string to a number in [0, 1). *)
Theorem getFilenameSeed_unit_interval (s : string) :
  (0 <=? getFilenameSeed s)%float = true
  /\ (getFilenameSeed s <? 1)%float = true.
Proof.
  destruct (getFilenameSeed_residue s) as (k & Hk & ->).
  assert (K : seed_in_unit_interval k = true).
  { apply (@all_from_spec seed_in_unit_interval residues 0%Z k
                          seed_in_unit_interval_all).
    rewrite Z_of_residues. lia. }
  unfold seed_in_unit_interval in K. cbv zeta in K.
  apply andb_true_iff in K. exact K.
Qed.

Lemma filename_plain (name : string) : plain_name name -> filename name = name.
Proof.
  intros (Hne & Hs & Hq & Hf). unfold filename.
  rewrite (before_first_clean "?" name Hq), (before_first_clean "#" name Hf).
  rewrite (after_last_clean "/" name Hs).
  destruct name; [congruence|reflexivity].
Qed.

Lemma filename_of_url (dir name rest : string) :
  plain_name name ->
  contains "?" dir = false -> contains "#" dir = false ->
  query_or_fragment rest ->
  filename (dir ++ "/" ++ name ++ rest) = name.
Proof.
  intros (Hne & Hs & Hq & Hf) Dq Df R. unfold filename.
  set (A := dir ++ "/" ++ name).
  assert (Aq : contains "?" A = false).
  { unfold A. rewrite !contains_app, Dq, Hq. reflexivity. }
  assert (Af : contains "#" A = false).
  { unfold A. rewrite !contains_app, Df, Hf. reflexivity. }
  assert (E : dir ++ "/" ++ name ++ rest = A ++ rest).
  { unfold A. rewrite !append_assoc. reflexivity. }
  rewrite E.
  assert (C : before_first "#" (before_first "?" (A ++ rest)) = A).
  { destruct R as [->|(r & [->| ->])].
    - rewrite append_nil_r, (before_first_clean "?" A Aq).
      apply (before_first_clean "#" A Af).
    - rewrite (before_first_cut "?" A r Aq).
      apply (before_first_clean "#" A Af).
    - rewrite (before_first_app "?" A _ Aq). cbn [before_first].
      replace (Ascii.eqb "#" "?") with false by reflexivity.
      apply (before_first_cut "#" A _ Af). }
  rewrite C. unfold A.
  change (dir ++ "/" ++ name) with (dir ++ String "/" name).
  rewrite (after_last_cut "/" dir name Hs).
  destruct name; [congruence|reflexivity].
Qed.

(** X3.  The seed depends on the file name only: a directory in front of
    it and a query or a fragment behind it do not change it. *)
Theorem getFilenameSeed_of_url (dir name rest : string) :
  plain_name name ->
  contains "?" dir = false -> contains "#" dir = false ->
  query_or_fragment rest ->
  getFilenameSeed (dir ++ "/" ++ name ++ rest) = getFilenameSeed name.
Proof.
  intros Hn Dq Df R. unfold getFilenameSeed. cbv zeta.
  rewrite (@filename_of_url dir name rest Hn Dq Df R).
  rewrite (@filename_plain name Hn).
  reflexivity.
Qed.

Lemma getFilenameSeed_of_url_witness :
  getFilenameSeed ("/assets/photos/event" ++ "/" ++ "img-01.jpg" ++ "?v=3#top")
  = getFilenameSeed "img-01.jpg".
Proof.
  apply getFilenameSeed_of_url.
  - repeat split; [discriminate|..]; reflexivity.
  - reflexivity.
  - reflexivity.
  - right. exists "v=3#top". left. reflexivity.
Defined.

End SeedProps.

(* ================================================================== *)
(** ** More on [computeRows]: sizes, row count, the greedy rule *)

Module LayoutProps.

Import JS Seed Layout JSFacts SeedFacts LayoutFacts.
Local Open Scope float_scope.

(** Consecutive elements of a list are related by [P]. *)
Fixpoint linked {A : Type} (P : A -> A -> Prop) (l : list A) : Prop :=
  match l with
  | a :: tl => match tl with
               | b :: _ => P a b /\ linked P tl
               | [] => True
               end
  | [] => True
  end.

(** The last element of a list, if any. *)
Fixpoint final {A : Type} (l : list A) : option A :=
  match l with
  | [] => None
  | a :: tl => match tl with [] => Some a | _ :: _ => final tl end
  end.

Section Params.

Variables (containerWidth gap baseRowHeight : number).

Local Abbreviation makeRow := (makeRow containerWidth gap baseRowHeight).
Local Abbreviation step := (step containerWidth gap baseRowHeight).
Local Abbreviation loop := (loop containerWidth gap baseRowHeight).
Local Abbreviation overflows := (overflows containerWidth gap baseRowHeight).
Local Abbreviation computeRows := (computeRows containerWidth gap baseRowHeight).
Local Abbreviation closesRow := (closesRow containerWidth gap baseRowHeight).
Local Abbreviation tracked := (tracked baseRowHeight).

(** A run of items fits: when it has more than one item, its last item
    did not push the estimate past the threshold. *)
Definition fits (run : list JustifiedItem) : Prop :=
  forall front last, run = front ++ [last] -> front <> [] ->
                     closesRow front last = false.

(** A run is followed by the run that the item closing it opened. *)
Definition closed_by (run next : list JustifiedItem) : Prop :=
  match next with
  | x :: _ => closesRow run x = true
  | [] => False
  end.

(** The runs of a loop state: the closed rows, then the open row if it has
    items. *)
Definition runs (st : LoopState) : list (list JustifiedItem) :=
  map row_items (rows st)
  ++ match currentRow st with [] => [] | _ :: _ => [currentRow st] end.

(** What the loop keeps true. *)
Definition greedy (st : LoopState) : Prop :=
  tracked st
  /\ (currentRow st = [] -> rows st = [])
  /\ Forall fits (runs st)
  /\ linked closed_by (runs st).

End Params.

Lemma linked_snoc {A : Type} (P : A -> A -> Prop) (l : list A) (b : A) :
  linked P (l ++ [b])
  <-> linked P l /\ (forall a, final l = Some a -> P a b).
Proof.
  induction l as [|a [|a' tl] IH].
  - cbn. split; [intros _; split; [exact I|discriminate]|intros _; exact I].
  - cbn. split.
    + intros [H _]. split; [exact I|]. intros x E. injection E as <-. exact H.
    + intros [_ H]. split; [apply H; reflexivity|exact I].
  - change (linked P ((a :: a' :: tl) ++ [b]))
      with (P a a' /\ linked P ((a' :: tl) ++ [b])).
    change (linked P (a :: a' :: tl)) with (P a a' /\ linked P (a' :: tl)).
    change (final (a :: a' :: tl)) with (final (a' :: tl)).
    rewrite IH. tauto.
Qed.

Lemma final_snoc {A : Type} (l : list A) (b : A) : final (l ++ [b]) = Some b.
Proof.
  induction l as [|a [|a' tl] IH]; [reflexivity|reflexivity|].
  change (final ((a :: a' :: tl) ++ [b])) with (final ((a' :: tl) ++ [b])).
  exact IH.
Qed.

Lemma concat_length_ge {A : Type} (ls : list (list A)) :
  Forall (fun l => l <> []) ls ->
  (List.length ls <= List.length (List.concat ls))%nat.
Proof.
  induction 1 as [|l ls Hl _ IH]; [apply Nat.le_refl|].
  cbn [List.concat List.length]. rewrite length_app.
  destruct l; [congruence|]. cbn [List.length]. lia.
Qed.

Section Invariants.

Variables (containerWidth gap baseRowHeight : number).

Local Abbreviation makeRow := (makeRow containerWidth gap baseRowHeight).
Local Abbreviation step := (step containerWidth gap baseRowHeight).
Local Abbreviation loop := (loop containerWidth gap baseRowHeight).
Local Abbreviation overflows := (overflows containerWidth gap baseRowHeight).
Local Abbreviation computeRows := (computeRows containerWidth gap baseRowHeight).
Local Abbreviation closesRow := (closesRow containerWidth gap baseRowHeight).
Local Abbreviation fits := (fits containerWidth gap baseRowHeight).
Local Abbreviation closed_by := (closed_by containerWidth gap baseRowHeight).
Local Abbreviation greedy := (greedy containerWidth gap baseRowHeight).
Local Abbreviation tracked := (tracked baseRowHeight).

Lemma fits_single (x : JustifiedItem) : fits [x].
Proof.
  intros front last E Hne. destruct front as [|y front]; [congruence|].
  destruct front; discriminate E.
Qed.

Lemma greedy_init : greedy init.
Proof.
  split; [reflexivity|]. split; [reflexivity|].
  split; [constructor|exact I].
Qed.

Lemma greedy_step (st : LoopState) (it : JustifiedItem) :
  greedy st -> greedy (step st it).
Proof.
  unfold LayoutProps.greedy. intros (T & E & F & L).
  pose proof (@overflows_closesRow containerWidth gap baseRowHeight st it T)
    as OC.
  pose proof (tracked_step containerWidth gap it T) as T'.
  destruct (overflows st it) eqn:Ho.
  - destruct (overflows_nonempty _ _ _ _ _ Ho) as (f & r & Hc).
    rewrite (step_closes _ _ _ _ _ Hc Ho) in *.
    unfold runs in *. rewrite Hc in F, L. cbn [rows currentRow].
    rewrite map_app. cbn [map]. rewrite row_items_makeRow.
    split; [exact T'|]. split; [discriminate|]. split.
    + apply Forall_app. split; [exact F|].
      constructor; [apply fits_single|constructor].
    + apply linked_snoc. split; [exact L|].
      intros a Ha. rewrite final_snoc in Ha. injection Ha as <-.
      cbn [closed_by]. rewrite <- Hc, <- OC. reflexivity.
  - rewrite (step_extends _ _ _ _ _ Ho) in *.
    unfold runs in *. cbn [rows currentRow].
    split; [exact T'|].
    destruct (currentRow st) as [|c cs] eqn:Hc.
    + rewrite (E eq_refl) in *. cbn [app map].
      split; [discriminate|]. split; [|exact I].
      constructor; [apply fits_single|constructor].
    + split; [discriminate|]. cbn [app].
      apply Forall_app in F. destruct F as [F _].
      apply linked_snoc in L. destruct L as [L La]. split.
      * apply Forall_app. split; [exact F|].
        constructor; [|constructor].
        intros front last Eq Hne.
        change (c :: cs ++ [it]) with ((c :: cs) ++ [it]) in Eq.
        apply app_inj_tail in Eq. destruct Eq as [<- <-].
        rewrite <- OC. reflexivity.
      * apply linked_snoc. split; [exact L|].
        intros a Ha. exact (La a Ha).
Qed.

Lemma greedy_loop (its : list JustifiedItem) :
  forall st, greedy st -> greedy (loop its st).
Proof.
  induction its as [|it its IH]; intros st H; [exact H|].
  unfold Layout.loop in *. cbn [fold_left]. apply IH, greedy_step, H.
Qed.

(** The runs of the final state are the rows of the result. *)
Lemma computeRows_runs (its : list JustifiedItem) :
  (containerWidth <=? 0) = false -> its <> [] ->
  map row_items (computeRows its) = runs (loop its init).
Proof.
  intros Hw Hi. rewrite (computeRows_run gap baseRowHeight Hw Hi).
  cbv zeta. unfold runs.
  destruct (currentRow (loop its init)) as [|c cs] eqn:Hc.
  - rewrite app_nil_r. reflexivity.
  - rewrite map_app. cbn [map]. rewrite row_items_makeRow. reflexivity.
Qed.

Lemma computeRows_greedy (its : list JustifiedItem) :
  Forall fits (map row_items (computeRows its))
  /\ linked closed_by (map row_items (computeRows its)).
Proof.
  destruct (containerWidth <=? 0) eqn:Hw.
  - unfold Layout.computeRows, JS.le. rewrite Hw. cbn. split; [constructor|exact I].
  - destruct its as [|x xs].
    + unfold Layout.computeRows. rewrite orb_true_r. cbn.
      split; [constructor|exact I].
    + rewrite (computeRows_runs Hw) by discriminate.
      destruct (greedy_loop (x :: xs) greedy_init) as (_ & _ & F & L).
      split; assumption.
Qed.

Lemma computeRows_concat (its : list JustifiedItem) :
  (containerWidth <=? 0) = false -> its <> [] ->
  List.concat (map row_items (computeRows its)) = its.
Proof.
  intros Hw Hi. rewrite (computeRows_run gap baseRowHeight Hw Hi). cbv zeta.
  pose proof (placed_loop containerWidth gap baseRowHeight its init) as P.
  unfold placed in P. cbn [rows currentRow init map List.concat app] in P.
  destruct (currentRow _) as [|f r] eqn:Hc.
  - rewrite app_nil_r in P. exact P.
  - rewrite map_app, concat_app. cbn [map List.concat].
    rewrite row_items_makeRow, app_nil_r. exact P.
Qed.

End Invariants.

Lemma linked_nth {A : Type} (P : A -> A -> Prop) (l : list A) :
  linked P l ->
  forall i a b, nth_error l i = Some a -> nth_error l (S i) = Some b ->
                P a b.
Proof.
  induction l as [|x [|y tl] IH]; intros L i a b Ha Hb.
  - destruct i; discriminate Ha.
  - destruct i as [|[|i]]; discriminate Hb.
  - destruct L as [Pxy L]. destruct i as [|i].
    + cbn in Ha, Hb. injection Ha as <-. injection Hb as <-. exact Pxy.
    + exact (IH L i a b Ha Hb).
Qed.

(** Six items that fill two rows of a 900px container. *)
Definition six_items : list JustifiedItem :=
  [ {| src := "/assets/a.jpg"; alt := "a"; category := "Event";
       aspectRatio := 1; __globalIndex := Some 0%nat |};
    {| src := "/assets/b.jpg"; alt := "b"; category := "Event";
       aspectRatio := 2; __globalIndex := Some 1%nat |};
    {| src := "/assets/c.jpg"; alt := "c"; category := "Event";
       aspectRatio := 1.5; __globalIndex := Some 2%nat |};
    {| src := "/assets/d.jpg"; alt := "d"; category := "Event";
       aspectRatio := 1; __globalIndex := Some 3%nat |};
    {| src := "/assets/e.jpg"; alt := "e"; category := "Event";
       aspectRatio := 3; __globalIndex := Some 4%nat |};
    {| src := "/assets/f.jpg"; alt := "f"; category := "Event";
       aspectRatio := 1; __globalIndex := Some 5%nat |} ].

(** X4.  In every output row, every item carries the row's height, a
    width of [aspectRatio * height], and the [__globalIndex] of its item. *)
Theorem rows_sized (containerWidth gap baseRowHeight : number)
        (its : list JustifiedItem) :
  Forall (fun r =>
            Forall (fun x =>
                      height x = row_height r
                      /\ width x = aspectRatio (item x) * row_height r
                      /\ globalIndex x = __globalIndex (item x))
                   (items r))
         (computeRows containerWidth gap baseRowHeight its).
Proof.
  eapply Forall_impl; [|apply computeRows_built].
  intros r (f & rest & ->). cbn [makeRow items row_height].
  apply Forall_map, Forall_forall. intros x _. cbn. auto.
Qed.

(** X5.  For a container width > 0 and [n > 0] items, [computeRows] makes
    at least one row and at most [n] rows. *)
Theorem row_count (containerWidth gap baseRowHeight : number)
        (its : list JustifiedItem) :
  (0 <? containerWidth) = true -> its <> [] ->
  (1 <= List.length (computeRows containerWidth gap baseRowHeight its)
   <= List.length its)%nat.
Proof.
  intros Hw Hi. apply ltb_not_leb in Hw.
  pose proof (computeRows_concat gap baseRowHeight Hw Hi) as C.
  assert (N : Forall (fun l : list JustifiedItem => l <> [])
                     (map row_items
                          (computeRows containerWidth gap baseRowHeight its))).
  { apply Forall_map. eapply Forall_impl; [|apply computeRows_built].
    intros r (f & rest & ->). rewrite row_items_makeRow. discriminate. }
  pose proof (concat_length_ge N) as G. rewrite C, length_map in G.
  split; [|exact G].
  destruct (computeRows containerWidth gap baseRowHeight its);
    [|cbn; lia].
  cbn in C. congruence.
Qed.

Lemma row_count_witness :
  (1 <= List.length (computeRows 900%float 10%float 200%float six_items)
   <= List.length six_items)%nat.
Proof.
  apply row_count; [reflexivity|discriminate].
Defined.

(** X6.  A row of more than one item never passed the threshold when its
    last item joined: the estimate at base height of the items before it,
    with that item and the gaps, is not above [containerWidth * 1.15].
    Only a row of a single item can be wider than that. *)
Theorem rows_within_threshold (containerWidth gap baseRowHeight : number)
        (its : list JustifiedItem) :
  Forall (fun r =>
            forall front last,
              row_items r = front ++ [last] -> front <> [] ->
              JS.gt (runningEstimate gap baseRowHeight front last)
                    (containerWidth * 1.15) = false)
         (computeRows containerWidth gap baseRowHeight its).
Proof.
  destruct (computeRows_greedy containerWidth gap baseRowHeight its)
    as [F _].
  pose proof (proj1 (Forall_map row_items _ _) F) as F'.
  eapply Forall_impl; [|exact F'].
  intros r Hr front last E Hne. specialize (Hr front last E Hne).
  unfold closesRow in Hr. destruct front; [congruence|exact Hr].
Qed.

(** X7.  The rows are filled greedily: each row but the last was closed
    by the first item of the next row, whose width at base height would
    have pushed the estimate of the row past [containerWidth * 1.15]. *)
Theorem rows_greedy (containerWidth gap baseRowHeight : number)
        (its : list JustifiedItem) (i : nat) (r r' : JustifiedRow) :
  nth_error (computeRows containerWidth gap baseRowHeight its) i = Some r ->
  nth_error (computeRows containerWidth gap baseRowHeight its) (S i)
  = Some r' ->
  exists x rest,
    row_items r' = x :: rest
    /\ row_items r <> []
    /\ JS.gt (runningEstimate gap baseRowHeight (row_items r) x)
             (containerWidth * 1.15) = true.
Proof.
  intros Hr Hr'.
  destruct (computeRows_greedy containerWidth gap baseRowHeight its)
    as [_ L].
  pose proof (@linked_nth _ _ _ L i (row_items r) (row_items r')) as P.
  rewrite !nth_error_map, Hr, Hr' in P. specialize (P eq_refl eq_refl).
  unfold closed_by in P. destruct (row_items r') as [|x rest]; [contradiction|].
  exists x, rest. split; [reflexivity|].
  unfold closesRow in P. destruct (row_items r); [discriminate|].
  split; [discriminate|exact P].
Qed.

Lemma rows_greedy_witness :
  let rows := computeRows 900 10 200 six_items in
  let no_row := {| items := []; row_height := 0 |} in
  exists x rest,
    row_items (nth 1 rows no_row) = x :: rest
    /\ row_items (nth 0 rows no_row) <> []
    /\ JS.gt (runningEstimate 10 200 (row_items (nth 0 rows no_row)) x)
             (900 * 1.15) = true.
Proof.
  cbv zeta.
  apply (@rows_greedy 900 10 200 six_items 0); vm_compute; reflexivity.
Defined.

End LayoutProps.

(* ================================================================== *)
(** ** The floor on row heights *)

Module HeightFacts.

Import JS Seed Layout JSFacts Rounding NumberFacts SeedFacts LayoutFacts.
Local Open Scope float_scope.















End HeightFacts.

(* ================================================================== *)
(** ** Where rows end *)

Module RowRule.

Import JS Seed Layout JSFacts SeedFacts LayoutFacts LayoutProps.
Local Open Scope float_scope.

Section Params.

Variables (containerWidth gap baseRowHeight : number).

Local Abbreviation closesRow := (closesRow containerWidth gap baseRowHeight).
Local Abbreviation tracked := (tracked baseRowHeight).

(** No item of the run met the closing test when it joined the items
    before it. *)
Definition unbroken (run : list JustifiedItem) : Prop :=
  forall front y back, run = front ++ y :: back -> closesRow front y = false.

(** What the loop keeps true of the closed rows and the open one. *)
Definition steady (st : LoopState) : Prop :=
  tracked st /\ Forall unbroken (runs st).

End Params.

Section Invariant.

Variables (containerWidth gap baseRowHeight : number).

Local Abbreviation step := (step containerWidth gap baseRowHeight).
Local Abbreviation loop := (loop containerWidth gap baseRowHeight).
Local Abbreviation overflows := (overflows containerWidth gap baseRowHeight).
Local Abbreviation computeRows := (computeRows containerWidth gap baseRowHeight).
Local Abbreviation closesRow := (closesRow containerWidth gap baseRowHeight).
Local Abbreviation unbroken := (unbroken containerWidth gap baseRowHeight).
Local Abbreviation steady := (steady containerWidth gap baseRowHeight).

Lemma unbroken_single (x : JustifiedItem) : unbroken [x].
Proof.
  intros front y back E. destruct front as [|z front]; [reflexivity|].
  destruct front; discriminate E.
Qed.

Lemma unbroken_snoc (run : list JustifiedItem) (it : JustifiedItem) :
  unbroken run -> closesRow run it = false -> unbroken (run ++ [it]).
Proof.
  intros U C front y back E.
  destruct back as [|b back].
  - apply app_inj_tail in E. destruct E as [<- <-]. exact C.
  - assert (Hne : b :: back <> []) by discriminate.
    destruct (exists_last Hne) as (back' & z & Eb). rewrite Eb in E.
    change (front ++ y :: back' ++ [z]) with (front ++ (y :: back') ++ [z]) in E.
    rewrite app_assoc in E. apply app_inj_tail in E. destruct E as [E _].
    exact (U front y back' E).
Qed.

Lemma steady_init : steady init.
Proof. split; [reflexivity|constructor]. Qed.

Lemma steady_step (st : LoopState) (it : JustifiedItem) :
  steady st -> steady (step st it).
Proof.
  unfold RowRule.steady. intros (T & U).
  pose proof (@overflows_closesRow containerWidth gap baseRowHeight st it T)
    as OC.
  pose proof (tracked_step containerWidth gap it T) as T'.
  split; [exact T'|].
  destruct (overflows st it) eqn:Ho.
  - destruct (overflows_nonempty _ _ _ _ _ Ho) as (f & r & Hc).
    rewrite (step_closes _ _ _ _ _ Hc Ho).
    unfold runs in *. rewrite Hc in U. cbn [rows currentRow].
    rewrite map_app. cbn [map]. rewrite row_items_makeRow.
    apply Forall_app. split; [exact U|].
    constructor; [apply unbroken_single|constructor].
  - rewrite (step_extends _ _ _ _ _ Ho).
    unfold runs in *. cbn [rows currentRow].
    destruct (currentRow st) as [|c cs] eqn:Hc.
    + cbn [app]. rewrite app_nil_r in U.
      apply Forall_app. split; [exact U|].
      constructor; [apply unbroken_single|constructor].
    + apply Forall_app in U. destruct U as [U Uc].
      inversion Uc as [|? ? Ucur _]; subst.
      apply Forall_app. split; [exact U|].
      constructor; [|constructor].
      change (c :: cs ++ [it]) with ((c :: cs) ++ [it]).
      apply unbroken_snoc; [exact Ucur|]. rewrite <- OC. reflexivity.
Qed.

Lemma steady_loop (its : list JustifiedItem) :
  forall st, steady st -> steady (loop its st).
Proof.
  induction its as [|it its IH]; intros st H; [exact H|].
  unfold Layout.loop in *. cbn [fold_left]. apply IH, steady_step, H.
Qed.

Lemma computeRows_unbroken (its : list JustifiedItem) :
  Forall unbroken (map row_items (computeRows its)).
Proof.
  destruct (containerWidth <=? 0) eqn:Hw.
  - rewrite computeRows_degenerate by (left; exact Hw). constructor.
  - destruct its as [|x xs].
    + rewrite computeRows_degenerate by (right; reflexivity). constructor.
    + rewrite (computeRows_runs gap baseRowHeight Hw) by discriminate.
      exact (proj2 (steady_loop (x :: xs) steady_init)).
Qed.

End Invariant.

(** C6.  In the rows [computeRows] returns, a row ends exactly where the
    rule closes it: an item that joined the items before it in its row
    did not meet the closing test (the row before it non-empty and the
    running estimate with it above [containerWidth * 1.15]), and the
    first item of every row after the first met it on the whole row
    before.  The rows hold the input items in order, every row has at
    least one item, and an item that opens a row stays in it even when it
    alone exceeds the threshold. *)
Theorem row_closing_rule
        (containerWidth gap baseRowHeight : number)
        (its : list JustifiedItem) (next : JustifiedItem) :
  let out := computeRows containerWidth gap baseRowHeight its in
  Forall (fun r => items r <> []) out
  /\ Forall (fun r =>
               forall front y back,
                 row_items r = front ++ y :: back ->
                 closesRow containerWidth gap baseRowHeight front y = false)
            out
  /\ (forall i r r',
         nth_error out i = Some r -> nth_error out (S i) = Some r' ->
         exists y back,
           row_items r' = y :: back
           /\ closesRow containerWidth gap baseRowHeight (row_items r) y
              = true)
  /\ ((containerWidth <=? 0) = false -> its <> [] ->
      List.concat (map row_items out) = its)
  /\ ((containerWidth <=? 0) = false ->
      computeRows containerWidth gap baseRowHeight [next]
      = [makeRow containerWidth gap baseRowHeight next [next]]).
Proof.
  cbv zeta. split; [|split; [|split; [|split]]].
  - eapply Forall_impl; [|apply computeRows_built].
    intros r (f & rest & ->). discriminate.
  - pose proof (computeRows_unbroken containerWidth gap baseRowHeight its) as U.
    exact (proj1 (Forall_map row_items _ _) U).
  - intros i r r' Hr Hr'.
    destruct (computeRows_greedy containerWidth gap baseRowHeight its)
      as [_ L].
    pose proof (@linked_nth _ _ _ L i (row_items r) (row_items r')) as P.
    rewrite !nth_error_map, Hr, Hr' in P. specialize (P eq_refl eq_refl).
    unfold closed_by in P.
    destruct (row_items r') as [|y back]; [contradiction|].
    exists y, back. split; [reflexivity|exact P].
  - intros Hw Hi. exact (computeRows_concat gap baseRowHeight Hw Hi).
  - intros Hw. unfold computeRows, JS.le. rewrite Hw. reflexivity.
Qed.

End RowRule.

(* ================================================================== *)
(** ** Invocations of [computeRows] on a store *)

Module Invocations.

Import JS Seed Layout JSFacts SeedFacts LayoutFacts.
Local Open Scope float_scope.

(** The store some other work left: three rows' worth of state. *)
Definition stale : LoopState :=
  {| rows := [makeRow 640 14 220 panorama [panorama]];
     currentRow := three_squares;
     currentWidthAtBase := 600;
     rowIndex := 7 |}.

(** An invocation returns what [computeRows] computes from the arguments
    alone, on whatever store it is run. *)
Lemma invoke_computeRows (containerWidth gap baseRowHeight : number)
      (its : list JustifiedItem) (before : LoopState) :
  fst (invoke containerWidth gap baseRowHeight its before)
  = computeRows containerWidth gap baseRowHeight its.
Proof.
  unfold invoke, computeRows. cbv zeta. cbn [rows].
  destruct (JS.le containerWidth 0 || (List.length its =? 0)%nat);
    reflexivity.
Qed.

(** C2.  [computeRows] is deterministic and keeps nothing from one
    invocation to the next: run on the store an earlier invocation (or
    anything else) left behind, an invocation overwrites every variable
    before reading it, so two invocations with identical arguments, the
    second on the store the first left, return the same rows, hence the
    same partition of the items, the same height per row and the same
    width per item, and so does an invocation on any other store. *)
Theorem computeRows_deterministic
        (containerWidth gap baseRowHeight : number)
        (its : list JustifiedItem) (before other : LoopState) :
  let first := invoke containerWidth gap baseRowHeight its before in
  let second := invoke containerWidth gap baseRowHeight its (snd first) in
  fst first = fst second
  /\ map row_items (fst first) = map row_items (fst second)
  /\ map row_height (fst first) = map row_height (fst second)
  /\ map (fun r => map width (items r)) (fst first)
     = map (fun r => map width (items r)) (fst second)
  /\ fst (invoke containerWidth gap baseRowHeight its other) = fst first
  /\ fst first = computeRows containerWidth gap baseRowHeight its.
Proof.
  cbv zeta. rewrite !invoke_computeRows. repeat split; reflexivity.
Qed.

Lemma computeRows_deterministic_witness :
  let first := invoke 900 10 200 three_squares stale in
  let second := invoke 900 10 200 three_squares (snd first) in
  fst first = fst second
  /\ map row_items (fst first) = map row_items (fst second)
  /\ map row_height (fst first) = map row_height (fst second)
  /\ map (fun r => map width (items r)) (fst first)
     = map (fun r => map width (items r)) (fst second)
  /\ fst (invoke 900 10 200 three_squares init) = fst first
  /\ fst first = computeRows 900 10 200 three_squares.
Proof.
  exact (@computeRows_deterministic 900 10 200 three_squares stale init).
Defined.

End Invocations.

(* ================================================================== *)
(** ** More on [lowerBound]: range and monotonicity *)

Module VirtualProps.

Import JS JSFacts Virtual VirtualFacts.
Local Open Scope Z_scope.

Lemma lexcmp_lt_le_trans (a b c : Z * Z * Z) :
  lexcmp a b = Lt -> lexcmp b c <> Gt -> lexcmp a c = Lt.
Proof.
  destruct a as [[a1 a2] a3], b as [[b1 b2] b3], c as [[c1 c2] c3].
  unfold lexcmp.
  destruct (Z.compare_spec a1 b1), (Z.compare_spec b1 c1),
    (Z.compare_spec a1 c1);
    try lia; try congruence;
    destruct (Z.compare_spec a2 b2), (Z.compare_spec b2 c2),
      (Z.compare_spec a2 c2);
    try lia; try congruence;
    destruct (Z.compare_spec a3 b3), (Z.compare_spec b3 c3),
      (Z.compare_spec a3 c3);
    try lia; try congruence.
Qed.

(** [a < b] and [b <= c] give [a < c]. *)
Lemma ltb_leb_trans (a b c : number) :
  (a <? b)%float = true -> (b <=? c)%float = true -> (a <? c)%float = true.
Proof.
  rewrite leb_spec, !ltb_spec. unfold SFleb, SFltb.
  destruct (SFcompare (Prim2SF a) (Prim2SF b)) as [cab|] eqn:Eab;
    [|discriminate].
  destruct (SFcompare (Prim2SF b) (Prim2SF c)) as [cbc|] eqn:Ebc;
    [|discriminate].
  destruct (SFcompare_defined _ _ Eab) as [Na Nb].
  destruct (SFcompare_defined _ _ Ebc) as [_ Nc].
  rewrite (SFcompare_key Na Nb) in Eab.
  rewrite (SFcompare_key Nb Nc) in Ebc.
  rewrite (SFcompare_key Na Nc).
  intros H1 H2.
  rewrite (@lexcmp_lt_le_trans (SFkey (Prim2SF a)) (SFkey (Prim2SF b))
                               (SFkey (Prim2SF c))); [reflexivity| |].
  - injection Eab as Eab. rewrite Eab. destruct cab; congruence.
  - injection Ebc as Ebc. rewrite Ebc. intros E. rewrite E in H2.
    discriminate.
Qed.

(** Whatever the comparisons answer, the loop keeps [lo <= hi] inside the
    interval it started from, and ends within as many iterations as the
    interval is wide. *)
Lemma lowerBound_loop_range (arr : list number) (target : number)
      (fuel : nat) :
  forall lo hi,
    0 <= lo <= hi -> hi <= 2 ^ 31 -> hi - lo <= Z.of_nat fuel ->
    exists r, lowerBound_loop fuel arr target lo hi = Some r
              /\ lo <= r <= hi.
Proof.
  induction fuel as [|fuel IH]; intros lo hi R L F.
  - assert (lo = hi) by lia. subst hi. exists lo.
    cbn [lowerBound_loop]. rewrite Z.ltb_irrefl. split; [reflexivity|lia].
  - cbn [lowerBound_loop]. destruct (lo <? hi) eqn:E.
    + apply Z.ltb_lt in E. cbv zeta. rewrite ushr1_half by lia.
      assert (M : lo <= (lo + hi) / 2 < hi).
      { split; [apply Z.div_le_lower_bound; lia
               |apply Z.div_lt_upper_bound; lia]. }
      destruct (below arr ((lo + hi) / 2) target).
      * destruct (IH ((lo + hi) / 2 + 1) hi) as (r & Hr & Rr); try lia.
        exists r. split; [exact Hr|lia].
      * destruct (IH lo ((lo + hi) / 2)) as (r & Hr & Rr); try lia.
        exists r. split; [exact Hr|lia].
    + apply Z.ltb_ge in E. exists lo. split; [reflexivity|lia].
Qed.

(** X8.  On any array no longer than 2^31, sorted or not, and for any
    target (NaN included), [lowerBound] terminates within [arr.length]
    iterations and returns an index between 0 and [arr.length]. *)
Theorem lowerBound_in_range (arr : list number) (target : number)
        (fuel : nat) :
  Z.of_nat (List.length arr) <= 2 ^ 31 ->
  (List.length arr <= fuel)%nat ->
  exists r, lowerBound fuel arr target = Some r
            /\ 0 <= r <= Z.of_nat (List.length arr).
Proof.
  intros L F. unfold lowerBound.
  apply lowerBound_loop_range; lia.
Qed.

Lemma lowerBound_in_range_witness :
  exists r, lowerBound 5 offsets nan = Some r
            /\ 0 <= r <= Z.of_nat (List.length offsets).
Proof.
  apply lowerBound_in_range; cbn; lia.
Defined.

(** X9.  On an array in ascending order, [lowerBound] is monotone in the
    target: a larger target never gives a smaller index. *)
Theorem lowerBound_monotone (arr : list number) (t1 t2 : number)
        (fuel : nat) :
  ascending arr ->
  Z.of_nat (List.length arr) <= 2 ^ 31 ->
  (List.length arr <= fuel)%nat ->
  JS.le t1 t2 = true ->
  exists r1 r2,
    lowerBound fuel arr t1 = Some r1
    /\ lowerBound fuel arr t2 = Some r2
    /\ r1 <= r2.
Proof.
  intros S L F T. unfold lowerBound.
  destruct (@lowerBound_loop_correct arr t1 S L fuel 0
              (Z.of_nat (List.length arr)) (bracket_whole arr t1)
              ltac:(lia)) as (r1 & H1 & (R1 & L1 & B1 & _)).
  destruct (@lowerBound_loop_correct arr t2 S L fuel 0
              (Z.of_nat (List.length arr)) (bracket_whole arr t2)
              ltac:(lia)) as (r2 & H2 & (R2 & L2 & _ & A2)).
  exists r1, r2. split; [exact H1|]. split; [exact H2|].
  destruct (Z.le_gt_cases r1 r2) as [Le|Gt]; [exact Le|exfalso].
  destruct (@get_in_range arr r2 ltac:(lia)) as [a G].
  pose proof (B1 r2 a ltac:(lia) G) as Lt1.
  pose proof (A2 r2 a (Z.le_refl r2) G) as Lt2.
  unfold JS.lt, JS.le in *.
  rewrite (ltb_leb_trans Lt1 T) in Lt2. discriminate.
Qed.

Lemma lowerBound_monotone_witness :
  exists r1 r2,
    lowerBound 5 offsets 300%float = Some r1
    /\ lowerBound 5 offsets 900%float = Some r2
    /\ r1 <= r2.
Proof.
  apply (@lowerBound_monotone offsets 300%float 900%float 5%nat
                              offsets_ascending).
  - cbn. lia.
  - cbn. lia.
  - reflexivity.
Defined.

End VirtualProps.

(* ================================================================== *)
(** ** Properties of the gallery component *)

Module GalleryFacts.

Import JS Seed Layout Aspect Virtual Gallery.
Import JSFacts SeedFacts LayoutFacts AspectFacts VirtualFacts.
Import LayoutProps VirtualProps.
Local Open Scope float_scope.

(** The target height of a row whose first item has the seed
    [k / 100000] stays within 6% of the base height. *)
Definition jitter_band (base : number) (k : Z) : bool :=
  let t := base * (1 + (JS.of_Z k / 100000 - 0.5) * 0.12) in
  (0.94 * base <=? t) && (t <? 1.06 * base).

(** [js] is [its] with aspect ratios: the same images in the same order,
    each tagged with its position. *)
Definition indexed (its : list ImageItem) (js : list JustifiedItem) : Prop :=
  forall j, In j js ->
            exists i it,
              __globalIndex j = Some i
              /\ nth_error its i = Some it
              /\ Layout.src j = Aspect.src it
              /\ Layout.alt j = Aspect.alt it
              /\ Layout.category j = Aspect.category it.

(** A category of three images. *)
Definition three_images : list ImageItem :=
  [ {| Aspect.src := "/assets/a.jpg"; Aspect.alt := "Event a";
       Aspect.category := "Event" |};
    {| Aspect.src := "/assets/b.jpg"; Aspect.alt := "Event b";
       Aspect.category := "Event" |};
    {| Aspect.src := "/assets/c.jpg"; Aspect.alt := "Event c";
       Aspect.category := "Event" |} ]%string.

(** A browser in which [b.jpg] fails to load. *)
Definition flaky (s : string) : ImageEvent :=
  if String.eqb s "/assets/b.jpg" then onerror else onload 3000 2000.

Lemma jitter_band_200 : all_from (jitter_band 200) residues 0 = true.
Proof. vm_compute. reflexivity. Qed.

Lemma jitter_band_220 : all_from (jitter_band 220) residues 0 = true.
Proof. vm_compute. reflexivity. Qed.

Lemma jitter_band_260 : all_from (jitter_band 260) residues 0 = true.
Proof. vm_compute. reflexivity. Qed.

Lemma jitter_band_at (base : number) (s : string) :
  all_from (jitter_band base) residues 0 = true ->
  let t := base * (1 + (getFilenameSeed s - 0.5) * 0.12) in
  (0.94 * base <=? t) = true /\ (t <? 1.06 * base) = true.
Proof.
  intros A. cbv zeta.
  destruct (getFilenameSeed_residue s) as (k & Hk & ->).
  assert (K : jitter_band base k = true).
  { apply (@all_from_spec (jitter_band base) residues 0%Z k A).
    rewrite Z_of_residues. lia. }
  unfold jitter_band in K. cbv zeta in K.
  apply andb_true_iff in K. exact K.
Qed.

(** X10.  Whatever the width of the container, the base row height is 200,
    220 or 260, and the target height of a row, jittered by the seed of
    its first item, stays within 6% of it. *)
Theorem target_height_band (width : number) (first : JustifiedItem) :
  let base := baseRowHeight width in
  (base = 200 \/ base = 220 \/ base = 260)
  /\ (0.94 * base <=? targetRowHeight base first) = true
  /\ (targetRowHeight base first <? 1.06 * base) = true.
Proof.
  cbv zeta. unfold baseRowHeight, targetRowHeight.
  destruct (JS.ge width 1024); [|destruct (JS.ge width 640)].
  - split; [auto|]. apply (@jitter_band_at 260 (Layout.src first) jitter_band_260).
  - split; [auto|]. apply (@jitter_band_at 220 (Layout.src first) jitter_band_220).
  - split; [auto|]. apply (@jitter_band_at 200 (Layout.src first) jitter_band_200).
Qed.

Lemma cumulativeFrom_length (heights : list number) :
  forall acc, List.length (cumulativeFrom acc heights) = List.length heights.
Proof.
  induction heights as [|h rest IH]; intros acc; [reflexivity|].
  cbn [cumulativeFrom List.length]. rewrite IH. reflexivity.
Qed.

Lemma cumulative_length (rows : list JustifiedRow) :
  List.length (cumulative (totalHeights rows)) = S (List.length rows).
Proof.
  unfold cumulative, totalHeights. cbn [List.length].
  rewrite cumulativeFrom_length, length_map. reflexivity.
Qed.

(** X11.  For any scroll position and window height, the range computed
    by [onScroll] from the cumulative offsets of the rows gives slice
    bounds that are in order and within the rows:
    [0 <= startIndex <= endIndex <= rows.length]. *)
Theorem visible_range_within_rows (rows : list JustifiedRow)
        (rectTop innerHeight : number) (fuel : nat) :
  (Z.of_nat (List.length rows) < 2 ^ 31)%Z ->
  (List.length rows < fuel)%nat ->
  let nrows := Z.of_nat (List.length rows) in
  exists range,
    visibleRange fuel (cumulative (totalHeights rows)) nrows
                 rectTop innerHeight = Some range
    /\ (0 <= startIndex range <= endIndex nrows range)%Z
    /\ (endIndex nrows range <= nrows)%Z.
Proof.
  intros L F. cbv zeta. unfold visibleRange. cbv zeta.
  pose proof (cumulative_length rows) as CL.
  set (cumul := cumulative (totalHeights rows)) in *.
  set (viewStart := Math_max 0 (Math_max 0 (- rectTop) - 800)).
  set (viewEnd := Math_max 0 (- rectTop) + innerHeight + 800).
  unfold lowerBound.
  destruct (@lowerBound_loop_range cumul viewStart fuel 0
              (Z.of_nat (List.length cumul))) as (s & -> & Rs);
    [lia|lia|lia|].
  destruct (@lowerBound_loop_range cumul viewEnd fuel 0
              (Z.of_nat (List.length cumul))) as (e & -> & Re);
    [lia|lia|lia|].
  eexists. split; [reflexivity|].
  unfold endIndex, startIndex. cbn [fst snd]. lia.
Qed.

Lemma visible_range_within_rows_witness :
  let rows := computeRows 900 10 200 six_items in
  let nrows := Z.of_nat (List.length rows) in
  exists range,
    visibleRange 3 (cumulative (totalHeights rows)) nrows
                 (-150) 768 = Some range
    /\ (0 <= startIndex range <= endIndex nrows range)%Z
    /\ (endIndex nrows range <= nrows)%Z.
Proof.
  cbv zeta.
  apply (@visible_range_within_rows (computeRows 900 10 200 six_items)
                                    (-150) 768 3).
  - vm_compute. reflexivity.
  - vm_compute. lia.
Defined.

(** Every item of an output row is one of the input items. *)
Lemma computeRows_items_in (containerWidth gap baseRowHeight : number)
      (js : list JustifiedItem) (r : JustifiedRow) (x : SizedItem) :
  In r (computeRows containerWidth gap baseRowHeight js) ->
  In x (items r) ->
  In (item x) js /\ globalIndex x = __globalIndex (item x).
Proof.
  intros Hr Hx.
  pose proof (computeRows_built containerWidth gap baseRowHeight js) as B.
  rewrite Forall_forall in B. destruct (B r Hr) as (f & rest & Er).
  split.
  - assert (Hj : In (item x) (row_items r)) by (apply in_map, Hx).
    destruct (containerWidth <=? 0) eqn:Hw.
    + unfold computeRows, JS.le in Hr. rewrite Hw in Hr. destruct Hr.
    + destruct js as [|j0 js'].
      * unfold computeRows in Hr. rewrite orb_true_r in Hr. destruct Hr.
      * rewrite <- (@computeRows_concat containerWidth gap baseRowHeight
                      (j0 :: js') Hw ltac:(discriminate)).
        apply in_concat. exists (row_items r). split; [|exact Hj].
        apply in_map, Hr.
  - subst r. cbn [makeRow items] in Hx. apply in_map_iff in Hx.
    destruct Hx as (j & <- & _). reflexivity.
Qed.

Lemma defaultItemsFrom_indexed (its : list ImageItem) :
  forall i0 j, In j (defaultItemsFrom i0 its) ->
    exists i it,
      __globalIndex j = Some (i0 + i)%nat
      /\ nth_error its i = Some it
      /\ Layout.src j = Aspect.src it
      /\ Layout.alt j = Aspect.alt it
      /\ Layout.category j = Aspect.category it.
Proof.
  induction its as [|x rest IH]; intros i0 j H; [destruct H|].
  cbn [defaultItemsFrom] in H. destruct H as [<-|H].
  - exists 0%nat, x. cbn. rewrite Nat.add_0_r. auto.
  - destruct (IH (S i0) j H) as (i & it & G & N & E).
    exists (S i), it. rewrite Nat.add_succ_r. cbn [nth_error]. auto.
Qed.

Lemma defaultItems_indexed (its : list ImageItem) :
  indexed its (defaultItems its).
Proof.
  intros j H. destruct (defaultItemsFrom_indexed its 0 j H)
    as (i & it & G & N & E).
  exists i, it. auto.
Qed.

Lemma enrichAll_indexed (browser : Browser) (its : list ImageItem)
      (enriched : list JustifiedItem) :
  enrichAll browser its = resolved enriched -> indexed its enriched.
Proof.
  intros H j Hj. unfold enrichAll in H.
  destruct (enrichFrom_resolves browser its 0) as (es & He & Hl & Hn).
  rewrite He in H. injection H as <-.
  apply In_nth_error in Hj. destruct Hj as [i Hi].
  assert (Hlt : (i < List.length its)%nat).
  { rewrite <- Hl. apply nth_error_Some. congruence. }
  destruct (nth_error its i) as [it|] eqn:Ei;
    [|apply nth_error_None in Ei; lia].
  destruct (Hn i it Ei) as (ratio & _ & Hj).
  rewrite Hi in Hj. injection Hj as ->.
  exists i, it. cbn. auto.
Qed.

(** X12.  Clicking an item opens that image.  When the rows are computed
    from the items as the gallery tags them (by the workers that load the
    aspect ratios, or with the default ratio 1.5), the [globalIndex] of
    every item of every row is the position, in the gallery's [items], of
    the image with the same [src], [alt] and [category]. *)
Theorem globalIndex_opens_item (browser : Browser) (its : list ImageItem)
        (enriched : list JustifiedItem) (width : number)
        (r : JustifiedRow) (x : SizedItem) :
  enrichAll browser its = resolved enriched \/ enriched = defaultItems its ->
  In r (galleryRows enriched width) ->
  In x (items r) ->
  exists i it,
    globalIndex x = Some i
    /\ nth_error its i = Some it
    /\ Aspect.src it = Layout.src (item x)
    /\ Aspect.alt it = Layout.alt (item x)
    /\ Aspect.category it = Layout.category (item x).
Proof.
  intros H Hr Hx.
  assert (I : indexed its enriched).
  { destruct H as [H| ->];
      [exact (enrichAll_indexed browser its H)|apply defaultItems_indexed]. }
  destruct (computeRows_items_in _ _ _ _ _ _ Hr Hx) as [Hin G].
  destruct (I (item x) Hin) as (i & it & Gi & N & Es & Ea & Ec).
  exists i, it. rewrite G, Gi. auto.
Qed.

Lemma globalIndex_opens_item_witness :
  let rows := galleryRows (defaultItems three_images) 900 in
  let no_row := {| items := []; row_height := 0 |} in
  let no_item :=
    {| item := square "" 0; width := 0; height := 0; globalIndex := None |} in
  let x := nth 1 (items (nth 0 rows no_row)) no_item in
  exists i it,
    globalIndex x = Some i
    /\ nth_error three_images i = Some it
    /\ Aspect.src it = Layout.src (item x)
    /\ Aspect.alt it = Layout.alt (item x)
    /\ Aspect.category it = Layout.category (item x).
Proof.
  cbv zeta.
  apply (@globalIndex_opens_item flaky three_images
           (defaultItems three_images) 900
           (nth 0 (galleryRows (defaultItems three_images) 900)
                {| items := []; row_height := 0 |})).
  - right. reflexivity.
  - vm_compute. left. reflexivity.
  - vm_compute. right. left. reflexivity.
Defined.

End GalleryFacts.

(* ================================================================== *)
(** ** More on the aspect-ratio resolution: the clamp *)

Module AspectProps.

Import JS Seed Layout Aspect JSFacts Rounding NumberFacts.
Import SeedFacts LayoutFacts AspectFacts GalleryFacts.
Local Open Scope float_scope.

(** A ratio the layout accepts: a number between 0.3 and 3.5. *)
Definition in_band (a : number) : Prop :=
  (0.3 <=? a) = true /\ (a <=? 3.5) = true.

(** [naturalWidth] and [naturalHeight] are unsigned 32-bit integers
    ([unsigned long] in the DOM). *)
Definition decoded (browser : Browser) : Prop :=
  forall s w h, browser s = onload w h ->
                (0 <= w < 2 ^ 32)%Z /\ (0 <= h < 2 ^ 32)%Z.

(** The tweak of an item whose seed is [k / 100000] stays within 10% of
    1. *)
Definition tweak_check (k : Z) : bool :=
  let tweak := 1 + (JS.of_Z k / 100000 - 0.5) * 0.2 in
  (0.9 <=? tweak) && (tweak <? 1.1).

Lemma tweak_check_all : all_from tweak_check residues 0 = true.
Proof. vm_compute. reflexivity. Qed.

Lemma tweak_regular (s : string) :
  SFregular (Prim2SF (1 + (getFilenameSeed s - 0.5) * 0.2)).
Proof.
  destruct (getFilenameSeed_residue s) as (k & Hk & ->).
  assert (K : tweak_check k = true).
  { apply (@all_from_spec tweak_check residues 0%Z k tweak_check_all).
    rewrite Z_of_residues. lia. }
  unfold tweak_check in K. cbv zeta in K.
  apply andb_true_iff in K. destruct K as [Lo Hi].
  apply (@regular_between 0.9 1.1); [reflexivity|exact Lo|exact Hi].
Qed.

Lemma clamp_in_band (x : number) :
  is_nan x = false -> in_band (Math_max 0.3 (Math_min 3.5 x)).
Proof.
  intros Hx. unfold in_band. set (m := Math_min 3.5 x).
  assert (Nm : is_nan m = false)
    by (unfold m; rewrite Math_min_nan, Hx; reflexivity).
  assert (N : is_nan (Math_max 0.3 m) = false)
    by (rewrite Math_max_nan, Nm; reflexivity).
  destruct (Math_max_number 0.3 m N) as (_ & _ & Lo & _ & C).
  split; [exact Lo|].
  destruct C as [->| ->]; [reflexivity|].
  destruct (Math_min_number 3.5 x Nm) as (_ & _ & H & _). exact H.
Qed.

(** The ratio of a decoded image is a number: the quotient of two
    integers below 2^32, the divisor not 0. *)
Lemma loadImageAspect_number (browser : Browser) (s : string)
      (ratio : number) :
  decoded browser -> loadImageAspect browser s = resolved ratio ->
  is_nan ratio = false.
Proof.
  intros D. unfold loadImageAspect.
  destruct (browser s) as [|w h] eqn:B.
  - intros E. injection E as <-. reflexivity.
  - destruct (D s w h B) as [Hw Hh].
    destruct (Z.eqb_spec h 0) as [E0|N0]; intros E; injection E as <-;
      [reflexivity|].
    apply div_number; [apply of_Z_finite; lia|].
    apply (@of_Z_regular h). lia.
Qed.

Lemma tweaked_in_band (s : string) (ratio : number) :
  is_nan ratio = false -> in_band (tweaked s ratio).
Proof.
  intros H. unfold tweaked. cbv zeta. apply clamp_in_band.
  apply mul_number; [exact H|apply tweak_regular].
Qed.

Lemma enrichAll_elements (browser : Browser) (its : list ImageItem)
      (enriched : list JustifiedItem) (j : JustifiedItem) :
  enrichAll browser its = resolved enriched -> In j enriched ->
  exists i it ratio,
    loadImageAspect browser (src it) = resolved ratio
    /\ j = enriched_with i it ratio.
Proof.
  intros H Hj. unfold enrichAll in H.
  destruct (enrichFrom_resolves browser its 0) as (es & He & Hl & Hn).
  rewrite He in H. injection H as <-.
  apply In_nth_error in Hj. destruct Hj as [i Hi].
  assert (Hlt : (i < List.length its)%nat).
  { rewrite <- Hl. apply nth_error_Some. congruence. }
  destruct (nth_error its i) as [it|] eqn:Ei;
    [|apply nth_error_None in Ei; lia].
  destruct (Hn i it Ei) as (ratio & Hr & Hj).
  rewrite Hi in Hj. injection Hj as ->. eauto.
Qed.

(** X13.  Whatever the images' sizes (unsigned 32-bit integers, as the
    DOM reports them) and whichever loads fail, every aspect ratio the
    workers hand to the layout is a number between 0.3 and 3.5. *)
Theorem aspect_ratio_clamped (browser : Browser) (its : list ImageItem)
        (enriched : list JustifiedItem) :
  decoded browser ->
  enrichAll browser its = resolved enriched ->
  Forall (fun j => in_band (aspectRatio j)) enriched.
Proof.
  intros D H. apply Forall_forall. intros j Hj.
  destruct (@enrichAll_elements browser its enriched j H Hj)
    as (i & it & ratio & Hr & ->).
  cbn [aspectRatio enriched_with].
  apply tweaked_in_band. exact (loadImageAspect_number _ D Hr).
Qed.

Lemma flaky_decoded : decoded flaky.
Proof.
  intros s w h. unfold flaky.
  destruct (String.eqb s "/assets/b.jpg"); [discriminate|].
  intros E. injection E as <- <-. lia.
Qed.

Lemma aspect_ratio_clamped_witness :
  exists enriched,
    enrichAll flaky three_images = resolved enriched
    /\ Forall (fun j => in_band (aspectRatio j)) enriched.
Proof.
  eexists. split; [reflexivity|].
  apply (@aspect_ratio_clamped flaky three_images);
    [exact flaky_decoded|reflexivity].
Defined.

End AspectProps.

(* ================================================================== *)
(** ** Properties of the lightbox navigation *)

Module LightboxFacts.

Import JS Lightbox Rounding NumberFacts.
Local Open Scope Z_scope.

(** The remainder on numbers, on values from the language
    specification's cases: a fraction, a negative dividend, a zero
    divisor, an infinite operand, and integers past 2^53. *)
Example rem_values :
  (JS.rem 5.5 2 = 1.5
   /\ JS.rem (-5.5) 2 = -1.5
   /\ JS.rem (-4) 2 = -0
   /\ JS.rem 4 (-3) = 1
   /\ PrimFloat.is_nan (JS.rem 5 0) = true
   /\ PrimFloat.is_nan (JS.rem infinity 3) = true
   /\ JS.rem 5 infinity = 5
   /\ JS.rem (9007199254740992 + 1) 12 = 8)%float.
Proof. repeat split; vm_compute; reflexivity. Qed.

Lemma next_index (length i : Z) :
  0 < length < 2 ^ 32 -> 0 <= i -> i + 1 < 2 ^ 53 ->
  showNext length (Some (JS.of_Z i))
  = Some (JS.of_Z (Z.rem (i + 1) length)).
Proof.
  intros Hl Hi Hs. unfold showNext.
  change 1%float with (JS.of_Z 1).
  rewrite of_Z_add, of_Z_rem by lia. reflexivity.
Qed.

Lemma prev_index (length i : Z) :
  0 < length < 2 ^ 32 -> 0 <= i -> i + length < 2 ^ 53 ->
  showPrev length (Some (JS.of_Z i))
  = Some (JS.of_Z (Z.rem (i + length - 1) length)).
Proof.
  intros Hl Hi Hs. unfold showPrev.
  change 1%float with (JS.of_Z 1).
  rewrite of_Z_add, of_Z_sub, of_Z_rem by lia. reflexivity.
Qed.

Lemma rem_next (length i : Z) :
  0 < length -> 0 <= i < length ->
  Z.rem (i + 1) length = if i =? length - 1 then 0 else i + 1.
Proof.
  intros Hl Hi. destruct (Z.eqb_spec i (length - 1)) as [E|N].
  - replace (i + 1) with length by lia. apply Z.rem_same. lia.
  - apply Z.rem_small. lia.
Qed.

Lemma rem_prev (length i : Z) :
  0 < length -> 0 <= i < length ->
  Z.rem (i + length - 1) length = if i =? 0 then length - 1 else i - 1.
Proof.
  intros Hl Hi. destruct (Z.eqb_spec i 0) as [E|N].
  - subst i. apply Z.rem_small. lia.
  - rewrite Z.rem_mod_nonneg by lia.
    replace (i + length - 1) with ((i - 1) + 1 * length) by lia.
    rewrite Z.mod_add by lia. apply Z.mod_small. lia.
Qed.

(** X14.  With [length > 0] images (an array holds fewer than 2^32) and
    the lightbox on image [i], [showNext] and [showPrev] stay within
    [0, length), wrap around at the two ends, and undo each other. *)
Theorem lightbox_navigation (length i : Z) :
  0 < length < 2 ^ 32 -> 0 <= i < length ->
  exists n p,
    showNext length (Some (JS.of_Z i)) = Some (JS.of_Z n)
    /\ showPrev length (Some (JS.of_Z i)) = Some (JS.of_Z p)
    /\ 0 <= n < length /\ 0 <= p < length
    /\ (i = length - 1 -> n = 0)
    /\ (i = 0 -> p = length - 1)
    /\ showPrev length (Some (JS.of_Z n)) = Some (JS.of_Z i)
    /\ showNext length (Some (JS.of_Z p)) = Some (JS.of_Z i).
Proof.
  intros Hl Hi.
  set (n := if i =? length - 1 then 0 else i + 1).
  set (p := if i =? 0 then length - 1 else i - 1).
  assert (Hn : 0 <= n < length)
    by (unfold n; destruct (Z.eqb_spec i (length - 1)); lia).
  assert (Hp : 0 <= p < length)
    by (unfold p; destruct (Z.eqb_spec i 0); lia).
  exists n, p.
  rewrite !next_index, !prev_index by lia.
  rewrite !rem_next, !rem_prev by lia. fold n p.
  split; [reflexivity|]. split; [reflexivity|].
  split; [exact Hn|]. split; [exact Hp|].
  unfold n, p.
  destruct (Z.eqb_spec i (length - 1)), (Z.eqb_spec i 0);
    repeat split; intros; try lia;
    repeat match goal with
           | |- context [?a =? ?b] => destruct (Z.eqb_spec a b)
           end;
    try lia; do 2 f_equal; lia.
Qed.

Lemma lightbox_navigation_witness :
  exists n p,
    showNext 12 (Some (JS.of_Z 11)) = Some (JS.of_Z n)
    /\ showPrev 12 (Some (JS.of_Z 11)) = Some (JS.of_Z p)
    /\ 0 <= n < 12 /\ 0 <= p < 12
    /\ (11 = 12 - 1 -> n = 0)
    /\ (11 = 0 -> p = 12 - 1)
    /\ showPrev 12 (Some (JS.of_Z n)) = Some (JS.of_Z 11)
    /\ showNext 12 (Some (JS.of_Z p)) = Some (JS.of_Z 11).
Proof.
  apply (@lightbox_navigation 12 11); lia.
Defined.

(** The index a deep link of more than 308 digits gives, and an index of
    2^53 among twelve images: the sums round, and both steps land on 8. *)
Example lightbox_large_index :
  showNext 12 (Some 9007199254740992%float) = Some 8%float
  /\ showPrev 12 (Some 9007199254740992%float) = Some 8%float
  /\ option_map PrimFloat.is_nan (showNext 12 (Some infinity)) = Some true.
Proof. repeat split; vm_compute; reflexivity. Qed.

Lemma rem_infinity (n : number) : JS.rem infinity n = nan.
Proof.
  unfold JS.rem. change (Prim2SF infinity) with (S754_infinity false).
  destruct (Prim2SF n); reflexivity.
Qed.

Lemma infinity_add (z : Z) :
  0 <= z < 2 ^ 53 -> (infinity + JS.of_Z z)%float = infinity.
Proof.
  intros H. apply Prim2SF_inj. rewrite add_spec, of_Z_canon by lia.
  change (Prim2SF infinity) with (S754_infinity false).
  destruct z; try lia; reflexivity.
Qed.

(** X15.  An index from a deep link may be past the last image; one step
    of [showNext] or [showPrev] brings any integer index [i >= 0] with
    [i + length] below 2^53 back within [0, length).  A closed lightbox
    stays closed, and the index Infinity gives NaN. *)
Theorem lightbox_back_in_range (length i : Z) :
  0 < length < 2 ^ 32 -> 0 <= i -> i + length < 2 ^ 53 ->
  (exists n, showNext length (Some (JS.of_Z i)) = Some (JS.of_Z n)
             /\ 0 <= n < length)
  /\ (exists p, showPrev length (Some (JS.of_Z i)) = Some (JS.of_Z p)
                /\ 0 <= p < length)
  /\ showNext length None = None
  /\ showPrev length None = None
  /\ showNext length (Some infinity) = Some nan
  /\ showPrev length (Some infinity) = Some nan.
Proof.
  intros Hl Hi Hs.
  rewrite next_index, prev_index by lia.
  split; [|split; [|split; [|split; [|split]]]]; try reflexivity.
  - eexists. split; [reflexivity|]. apply Z.rem_bound_pos; lia.
  - eexists. split; [reflexivity|]. apply Z.rem_bound_pos; lia.
  - unfold showNext. change (infinity + 1)%float with infinity.
    rewrite rem_infinity. reflexivity.
  - unfold showPrev. rewrite infinity_add by lia.
    change (infinity - 1)%float with infinity.
    rewrite rem_infinity. reflexivity.
Qed.

Lemma lightbox_back_in_range_witness :
  (exists n, showNext 12 (Some (JS.of_Z 40)) = Some (JS.of_Z n)
             /\ 0 <= n < 12)
  /\ (exists p, showPrev 12 (Some (JS.of_Z 40)) = Some (JS.of_Z p)
                /\ 0 <= p < 12)
  /\ showNext 12 None = None
  /\ showPrev 12 None = None
  /\ showNext 12 (Some infinity) = Some nan
  /\ showPrev 12 (Some infinity) = Some nan.
Proof.
  apply (@lightbox_back_in_range 12 40); lia.
Defined.

End LightboxFacts.

(* ================================================================== *)
(** ** Properties of the manifest: from [build] to [findThumbnail] *)

Module ManifestFacts.

Import Seed Thumbs Manifest StringFacts.
Local Open Scope string_scope.

(** The last character of a string. *)
Fixpoint final_char (s : string) : option ascii :=
  match s with
  | EmptyString => None
  | String c r => match r with
                  | EmptyString => Some c
                  | String _ _ => final_char r
                  end
  end.

(** The URL under which the manifest serves the file [n] of [OUT_DIR]. *)
Definition served (files : list string) (u : string) : Prop :=
  exists n, u = "/thumbs/" ++ n /\ In n files.

(** A manifest value is the URL of a written file, or a [srcset] of
    three of them. *)
Definition resolves (files : list string) (v : option string) : Prop :=
  exists u,
    v = Some u
    /\ (served files u
        \/ exists u1 u2 u3,
            served files u1 /\ served files u2 /\ served files u3
            /\ u = u1 ++ " 400w, " ++ u2 ++ " 800w, " ++ u3 ++ " 1200w").

(** The default thumbnail of a source image: its 800px variant. *)
Definition defaultUrlOf (g : SourceFile) : string :=
  "/thumbs/" ++ baseName g ++ "-800.webp".

(** Two photos of different categories and a banner. *)
Definition photo_a : SourceFile :=
  {| dir := "/repo/src/assets/photos/event"; name := "IMG_0001.JPG";
     rel := "assets/photos/event/IMG_0001.JPG"; baseName := "IMG_0001";
     meta := {| width := Some 3000%Z |} |}.

Definition photo_b : SourceFile :=
  {| dir := "/repo/src/assets/photos/sport"; name := "run.png";
     rel := "assets/photos/sport/run.png"; baseName := "run";
     meta := {| width := Some 640%Z |} |}.

Definition notes : SourceFile :=
  {| dir := "/repo/src/assets/photos/sport"; name := "notes.txt";
     rel := "assets/photos/sport/notes.txt"; baseName := "notes";
     meta := {| width := None |} |}.

Definition banner : SourceFile :=
  {| dir := "/repo/src/assets/banner"; name := "hero.webp";
     rel := "assets/banner/hero.webp"; baseName := "hero";
     meta := {| width := Some 2400%Z |} |}.

Lemma final_char_app (p : string) (c : ascii) (r : string) :
  final_char (p ++ String c r) = final_char (String c r).
Proof.
  induction p as [|x p IH]; [reflexivity|].
  cbn [append]. change (final_char (String x (p ++ String c r)))
    with (match p ++ String c r with
          | EmptyString => Some x
          | String _ _ => final_char (p ++ String c r)
          end).
  destruct (p ++ String c r) eqn:E; [destruct p; discriminate E|].
  exact IH.
Qed.

Lemma lowercase_app (a b : string) :
  lowercase (a ++ b) = lowercase a ++ lowercase b.
Proof.
  induction a as [|x a IH]; [reflexivity|].
  cbn [append lowercase]. rewrite IH. reflexivity.
Qed.

Lemma ends_with_suffix (suffix s : string) :
  ends_with suffix s = true -> exists p, s = p ++ suffix.
Proof.
  induction s as [|c s IH]; cbn [ends_with]; intros H.
  - apply orb_true_iff in H. destruct H as [H|H]; [|discriminate].
    apply String.eqb_eq in H. exists "". exact H.
  - apply orb_true_iff in H. destruct H as [H|H].
    + apply String.eqb_eq in H. exists "". exact H.
    + destruct (IH H) as [p ->]. exists (String c p). reflexivity.
Qed.

(** An image path ends, case aside, with [g] or [p]. *)
Lemma isImage_final_char (path : string) :
  isImage path = true ->
  final_char (lowercase path) = Some "g"%char
  \/ final_char (lowercase path) = Some "p"%char.
Proof.
  unfold isImage. cbv zeta. intros H.
  repeat (apply orb_true_iff in H; destruct H as [H|H]);
    apply ends_with_suffix in H; destruct H as [p ->];
    rewrite final_char_app; cbn; auto.
Qed.

(** No image has a name that ends in [__srcset]. *)
Lemma image_name_not_srcset (f : SourceFile) (n : string) :
  isImage (file f) = true -> name f <> n ++ "__srcset".
Proof.
  intros H E. apply isImage_final_char in H.
  unfold file in H. rewrite E in H.
  rewrite <- !append_assoc in H. rewrite lowercase_app in H.
  change (lowercase "__srcset") with "__srcset" in H.
  rewrite final_char_app in H. cbn in H. destruct H; discriminate.
Qed.

Lemma defaultUrl_variants (base : string) (m : Metadata) :
  let urls := urlsOf (variants base m) in
  orElse (urlAt 800 urls) (urlAt (last widths 0%Z) urls)
  = Some ("/thumbs/" ++ base ++ "-800.webp")
  /\ urlAt 400 urls = Some ("/thumbs/" ++ base ++ "-400.webp")
  /\ urlAt 800 urls = Some ("/thumbs/" ++ base ++ "-800.webp")
  /\ urlAt 1200 urls = Some ("/thumbs/" ++ base ++ "-1200.webp")
  /\ map (fun v => outName base (nominal v)) (variants base m)
     = [base ++ "-400.webp"; base ++ "-800.webp"; base ++ "-1200.webp"].
Proof.
  cbv zeta. repeat split; reflexivity.
Qed.

(** What [processFile] does to the manifest and to the output directory,
    for an image. *)
Lemma processFile_image (st : BuildState) (g : SourceFile) :
  isImage (file g) = true ->
  let srcset := "/thumbs/" ++ baseName g ++ "-400.webp" ++ " 400w, "
                ++ "/thumbs/" ++ baseName g ++ "-800.webp" ++ " 800w, "
                ++ "/thumbs/" ++ baseName g ++ "-1200.webp" ++ " 1200w" in
  processFile st g =
    {| manifest :=
         ("/src" ++ "/" ++ rel g ++ "__srcset", Some srcset)
           :: ("/src" ++ "/" ++ rel g, Some (defaultUrlOf g))
           :: ("/assets/" ++ name g ++ "__srcset", Some srcset)
           :: ("/assets/" ++ name g, Some (defaultUrlOf g))
           :: manifest st;
       written :=
         written st ++ [baseName g ++ "-400.webp"; baseName g ++ "-800.webp";
                        baseName g ++ "-1200.webp"] |}.
Proof.
  intros H. cbv zeta. unfold processFile. rewrite H. cbn [negb].
  cbv zeta.
  destruct (defaultUrl_variants (baseName g) (meta g))
    as (D & U4 & U8 & U12 & W).
  cbv zeta in D, U4, U8, U12, W.
  rewrite D, U4, U8, U12, W. unfold assign, show, defaultUrlOf.
  rewrite <- !StringFacts.append_assoc. reflexivity.
Qed.

Lemma processFile_other (st : BuildState) (g : SourceFile) :
  isImage (file g) = false -> processFile st g = st.
Proof. intros H. unfold processFile. rewrite H. reflexivity. Qed.

Lemma eqb_assets_src (n x : string) :
  String.eqb ("/assets/" ++ n) ("/src" ++ x) = false.
Proof. reflexivity. Qed.

Lemma eqb_assets (n m : string) :
  String.eqb ("/assets/" ++ n) ("/assets/" ++ m) = String.eqb n m.
Proof. reflexivity. Qed.

(** Looking up the production key of a name that is not a [__srcset]
    key, after one more file has been processed. *)
Lemma lookup_processFile (st : BuildState) (g : SourceFile) (n : string) :
  (forall n', n <> n' ++ "__srcset") ->
  lookup ("/assets/" ++ n) (manifest (processFile st g))
  = if isImage (file g) && String.eqb n (name g)
    then Some (defaultUrlOf g)
    else lookup ("/assets/" ++ n) (manifest st).
Proof.
  intros Hn. destruct (isImage (file g)) eqn:Hg.
  - rewrite (processFile_image st g Hg). cbn [manifest lookup andb].
    rewrite !eqb_assets_src, !eqb_assets.
    replace (String.eqb n (name g ++ "__srcset")) with false
      by (symmetry; apply String.eqb_neq, Hn).
    reflexivity.
  - rewrite (processFile_other st g Hg). reflexivity.
Qed.

Lemma written_processFile (st : BuildState) (g : SourceFile) (n : string) :
  In n (written st) -> In n (written (processFile st g)).
Proof.
  intros H. destruct (isImage (file g)) eqn:Hg.
  - rewrite (processFile_image st g Hg). cbn [written].
    apply in_or_app. left. exact H.
  - rewrite (processFile_other st g Hg). exact H.
Qed.

Section RoundTrip.

Variables (all : list SourceFile) (n : string).
Hypothesis n_plain : forall n', n <> n' ++ "__srcset".

(** The manifest serves [n] with the default thumbnail of one of the
    images named [n], and that thumbnail has been written. *)
Definition serves (st : BuildState) : Prop :=
  exists g,
    In g all /\ name g = n /\ isImage (file g) = true
    /\ lookup ("/assets/" ++ n) (manifest st) = Some (defaultUrlOf g)
    /\ In (baseName g ++ "-800.webp") (written st).

Lemma serves_processFile (st : BuildState) (x : SourceFile) :
  In x all ->
  serves st \/ (name x = n /\ isImage (file x) = true) ->
  serves (processFile st x).
Proof.
  intros Hx [(g & Hg & Hn & Hi & Hl & Hw)|[Hn Hi]].
  - destruct (isImage (file x) && String.eqb n (name x)) eqn:E.
    + apply andb_true_iff in E. destruct E as [Ei En].
      apply String.eqb_eq in En. exists x.
      split; [exact Hx|]. split; [auto|]. split; [exact Ei|].
      rewrite (lookup_processFile st x n_plain), Ei, En, String.eqb_refl.
      split; [reflexivity|].
      rewrite (processFile_image st x Ei). cbn [written].
      apply in_or_app. right. cbn. auto.
    + exists g. split; [exact Hg|]. split; [exact Hn|]. split; [exact Hi|].
      rewrite (lookup_processFile st x n_plain), E.
      split; [exact Hl|apply written_processFile, Hw].
  - exists x. split; [exact Hx|]. split; [exact Hn|]. split; [exact Hi|].
    rewrite (lookup_processFile st x n_plain), Hi, Hn, String.eqb_refl.
    split; [reflexivity|].
    rewrite (processFile_image st x Hi). cbn [written].
    apply in_or_app. right. cbn. auto.
Qed.

Lemma serves_fold (l : list SourceFile) :
  forall st,
    (forall x, In x l -> In x all) ->
    serves st \/ (exists g, In g l /\ name g = n /\ isImage (file g) = true) ->
    serves (fold_left processFile l st).
Proof.
  induction l as [|x l IH]; intros st Hl H.
  - destruct H as [H|(g & [] & _)]. exact H.
  - cbn [fold_left]. apply IH; [intros y Hy; apply Hl; right; exact Hy|].
    destruct H as [H|(g & [<-|Hg] & Hn & Hi)].
    + left. apply serves_processFile; [apply Hl; left; reflexivity|].
      left. exact H.
    + left. apply serves_processFile; [apply Hl; left; reflexivity|].
      right. auto.
    + right. exists g. auto.
Qed.

End RoundTrip.

Lemma build_fold (photos banners : list SourceFile) :
  build photos banners = fold_left processFile (photos ++ banners) emptyBuild.
Proof. unfold build. rewrite fold_left_app. reflexivity. Qed.

(** X16.  From [build] to the page.  For an image [f] that [build] has
    processed, and a source URL whose last segment is the name of [f],
    [findThumbnail] finds, in the manifest [build] wrote, the 800px
    thumbnail of an image of that name; [build] has written that file to
    the output directory, and it is what the gallery displays. *)
Theorem thumbnail_round_trip (photos banners : list SourceFile)
        (f : SourceFile) (prefix : string) :
  In f (photos ++ banners) ->
  isImage (file f) = true ->
  contains "/" (name f) = false ->
  exists g,
    In g (photos ++ banners) /\ name g = name f
    /\ isImage (file g) = true
    /\ findThumbnail (prefix ++ "/" ++ name f)
                     (manifest (build photos banners))
       = Some ("/thumbs/" ++ baseName g ++ "-800.webp")
    /\ In (baseName g ++ "-800.webp") (written (build photos banners))
    /\ displaySrc (prefix ++ "/" ++ name f) (manifest (build photos banners))
       = "/thumbs/" ++ baseName g ++ "-800.webp".
Proof.
  intros Hf Hi Hs.
  pose proof (@serves_fold (photos ++ banners) (name f)
                (fun n' => @image_name_not_srcset f n' Hi)
                (photos ++ banners) emptyBuild (fun x H => H)) as S.
  destruct S as (g & Hg & Hn & Hgi & Hl & Hw).
  { right. exists f. auto. }
  rewrite <- build_fold in Hl, Hw.
  assert (F : findThumbnail (prefix ++ "/" ++ name f)
                            (manifest (build photos banners))
              = Some ("/thumbs/" ++ baseName g ++ "-800.webp")).
  { unfold findThumbnail. cbv zeta.
    change (prefix ++ "/" ++ name f) with (prefix ++ String "/" (name f)).
    rewrite (after_last_cut "/" prefix (name f) Hs).
    replace (or_string (name f) "") with (name f)
      by (destruct (name f); reflexivity).
    exact Hl. }
  exists g. split; [exact Hg|]. split; [exact Hn|]. split; [exact Hgi|].
  split; [exact F|]. split; [exact Hw|].
  unfold displaySrc. rewrite F. reflexivity.
Qed.

Lemma thumbnail_round_trip_witness :
  exists g,
    In g ([photo_a; notes; photo_b] ++ [banner]) /\ name g = name photo_b
    /\ isImage (file g) = true
    /\ findThumbnail ("/assets" ++ "/" ++ name photo_b)
                     (manifest (build [photo_a; notes; photo_b] [banner]))
       = Some ("/thumbs/" ++ baseName g ++ "-800.webp")
    /\ In (baseName g ++ "-800.webp")
          (written (build [photo_a; notes; photo_b] [banner]))
    /\ displaySrc ("/assets" ++ "/" ++ name photo_b)
                  (manifest (build [photo_a; notes; photo_b] [banner]))
       = "/thumbs/" ++ baseName g ++ "-800.webp".
Proof.
  apply (@thumbnail_round_trip [photo_a; notes; photo_b] [banner] photo_b
                               "/assets").
  - cbn. auto.
  - reflexivity.
  - reflexivity.
Defined.

(** The values of a manifest resolve in the output directory. *)
Definition sound (st : BuildState) : Prop :=
  Forall (fun e => resolves (written st) (snd e)) (manifest st).

Lemma served_more (files more : list string) (u : string) :
  served files u -> served (files ++ more) u.
Proof.
  intros (n & -> & H). exists n. split; [reflexivity|].
  apply in_or_app. left. exact H.
Qed.

Lemma resolves_more (files more : list string) (v : option string) :
  resolves files v -> resolves (files ++ more) v.
Proof.
  intros (u & -> & [H|(u1 & u2 & u3 & H1 & H2 & H3 & E)]);
    exists u; (split; [reflexivity|]).
  - left. apply served_more, H.
  - right. exists u1, u2, u3. auto using served_more.
Qed.

Lemma sound_processFile (st : BuildState) (g : SourceFile) :
  sound st -> sound (processFile st g).
Proof.
  unfold sound. intros H. destruct (isImage (file g)) eqn:Hg;
    [|rewrite (processFile_other st g Hg); exact H].
  rewrite (processFile_image st g Hg). cbn [manifest written].
  set (more := [baseName g ++ "-400.webp"; baseName g ++ "-800.webp";
                baseName g ++ "-1200.webp"]).
  assert (S4 : served (written st ++ more)
                      ("/thumbs/" ++ baseName g ++ "-400.webp")).
  { eexists. split; [reflexivity|]. apply in_or_app. right. cbn. auto. }
  assert (S8 : served (written st ++ more)
                      ("/thumbs/" ++ baseName g ++ "-800.webp")).
  { eexists. split; [reflexivity|]. apply in_or_app. right. cbn. auto. }
  assert (S12 : served (written st ++ more)
                       ("/thumbs/" ++ baseName g ++ "-1200.webp")).
  { eexists. split; [reflexivity|]. apply in_or_app. right. cbn. auto. }
  assert (D : resolves (written st ++ more) (Some (defaultUrlOf g))).
  { eexists. split; [reflexivity|]. left. exact S8. }
  assert (R : resolves (written st ++ more)
                (Some ("/thumbs/" ++ baseName g ++ "-400.webp" ++ " 400w, "
                       ++ "/thumbs/" ++ baseName g ++ "-800.webp" ++ " 800w, "
                       ++ "/thumbs/" ++ baseName g ++ "-1200.webp"
                       ++ " 1200w"))).
  { eexists. split; [reflexivity|]. right.
    exists ("/thumbs/" ++ baseName g ++ "-400.webp"),
           ("/thumbs/" ++ baseName g ++ "-800.webp"),
           ("/thumbs/" ++ baseName g ++ "-1200.webp").
    split; [exact S4|]. split; [exact S8|]. split; [exact S12|].
    rewrite !StringFacts.append_assoc. reflexivity. }
  repeat (constructor; [cbn [snd]; assumption|]).
  eapply Forall_impl; [|exact H]. intros e He. apply resolves_more, He.
Qed.

Lemma sound_fold (l : list SourceFile) :
  forall st, sound st -> sound (fold_left processFile l st).
Proof.
  induction l as [|x l IH]; intros st H; [exact H|].
  cbn [fold_left]. apply IH, sound_processFile, H.
Qed.

Lemma lookup_in (k : string) (m : ManifestObject) (u : string) :
  lookup k m = Some u -> exists k', In (k', Some u) m.
Proof.
  induction m as [|[k' v] m IH]; cbn [lookup]; intros H; [discriminate|].
  destruct (String.eqb k k').
  - subst v. exists k'. left. reflexivity.
  - destruct (IH H) as [k'' Hk]. exists k''. right. exact Hk.
Qed.

(** X17.  Whatever the source files, every value that a lookup in the
    manifest of [build] returns resolves in the output directory: it is
    the URL [/thumbs/<file>] of a file that the same run has written, or
    a [srcset] made of three such URLs. *)
Theorem manifest_resolves (photos banners : list SourceFile)
        (k u : string) :
  lookup k (manifest (build photos banners)) = Some u ->
  let files := written (build photos banners) in
  served files u
  \/ exists u1 u2 u3,
      served files u1 /\ served files u2 /\ served files u3
      /\ u = u1 ++ " 400w, " ++ u2 ++ " 800w, " ++ u3 ++ " 1200w".
Proof.
  intros H. cbv zeta.
  assert (S : sound (build photos banners)).
  { rewrite build_fold. apply sound_fold. constructor. }
  destruct (lookup_in k _ H) as [k' Hk].
  unfold sound in S. rewrite Forall_forall in S.
  destruct (S _ Hk) as (u' & E & R). cbn [snd] in E.
  injection E as <-. exact R.
Qed.

Lemma manifest_resolves_witness :
  let st := build [photo_a; notes; photo_b] [banner] in
  served (written st) "/thumbs/hero-800.webp"
  \/ exists u1 u2 u3,
      served (written st) u1 /\ served (written st) u2
      /\ served (written st) u3
      /\ "/thumbs/hero-800.webp"
         = u1 ++ " 400w, " ++ u2 ++ " 800w, " ++ u3 ++ " 1200w".
Proof.
  cbv zeta.
  apply (@manifest_resolves [photo_a; notes; photo_b] [banner]
                            "/src/assets/banner/hero.webp").
  reflexivity.
Defined.

End ManifestFacts.

(* ================================================================== *)
(** ** More on the thumbnail build: which files, which sizes *)

Module BuildProps.

Import Seed Thumbs Manifest StringFacts ManifestFacts.
Local Open Scope string_scope.

(** The four extensions [isImage] accepts, in lower case. *)
Definition image_extension (ext : string) : Prop :=
  ext = "jpg" \/ ext = "jpeg" \/ ext = "png" \/ ext = "webp".

Lemma ends_with_app (suffix p : string) : ends_with suffix (p ++ suffix) = true.
Proof.
  induction p as [|c p IH].
  - cbn [append]. destruct suffix; cbn [ends_with];
      rewrite String.eqb_refl; reflexivity.
  - cbn [append ends_with]. rewrite IH. apply orb_true_r.
Qed.

Lemma lowercase_app_inv (s a b : string) :
  lowercase s = a ++ b ->
  exists s1 s2, s = s1 ++ s2 /\ lowercase s1 = a /\ lowercase s2 = b.
Proof.
  revert s. induction a as [|x a IH]; intros s H.
  - exists "", s. auto.
  - destruct s as [|c s]; [discriminate H|].
    cbn [lowercase append] in H. injection H as Hc Hs.
    destruct (IH s Hs) as (s1 & s2 & -> & H1 & H2).
    exists (String c s1), s2. cbn [lowercase append].
    rewrite Hc, H1. auto.
Qed.

(** X18.  [isImage] accepts exactly the paths that end with a dot and one
    of the extensions jpg, jpeg, png and webp, in any letter case. *)
Theorem isImage_extensions (path : string) :
  isImage path = true
  <-> exists stem ext,
        path = stem ++ "." ++ ext /\ image_extension (lowercase ext).
Proof.
  unfold isImage, image_extension. cbv zeta. split.
  - intros H.
    repeat (apply orb_true_iff in H; destruct H as [H|H]);
      apply ends_with_suffix in H; destruct H as [p H];
      apply lowercase_app_inv in H;
      destruct H as (stem & tail & -> & _ & Ht);
      (destruct tail as [|d ext]; [discriminate Ht|]);
      cbn [lowercase] in Ht; injection Ht as Hd He;
      assert (d = "."%char)
        by (revert Hd; unfold lower;
            destruct ((65 <=? nat_of_ascii d) && (nat_of_ascii d <=? 90))%nat
                     eqn:U; [|tauto];
            intros Hd; exfalso;
            apply (f_equal nat_of_ascii) in Hd;
            rewrite nat_ascii_embedding in Hd;
            [apply andb_true_iff in U; destruct U as [U1 U2];
             apply Nat.leb_le in U1; cbn in Hd; lia
            |apply andb_true_iff in U; destruct U as [U1 U2];
             apply Nat.leb_le in U2; lia]);
      subst d; exists stem, ext; (split; [reflexivity|]); rewrite He; auto.
  - intros (stem & ext & -> & E).
    rewrite !lowercase_app. change (lowercase ".") with ".".
    assert (A : forall e, lowercase stem ++ "." ++ e
                          = lowercase stem ++ String "." e) by reflexivity.
    rewrite A.
    destruct E as [->|[->|[->| ->]]];
      rewrite (ends_with_app _ (lowercase stem));
      rewrite ?orb_true_r; reflexivity.
Qed.

(** X19.  The quality handed to the encoder never increases with the
    width, and stays between 35 and 40. *)
Theorem quality_decreases (w1 w2 : Z) :
  (w1 <= w2)%Z ->
  (qualityFor w2 <= qualityFor w1)%Z
  /\ (35 <= qualityFor w2 <= 40)%Z.
Proof.
  intros H. unfold qualityFor.
  destruct (Z.leb_spec w1 400), (Z.leb_spec w1 800),
    (Z.leb_spec w2 400), (Z.leb_spec w2 800); lia.
Qed.

Lemma quality_decreases_witness :
  (qualityFor 1200 <= qualityFor 400)%Z
  /\ (35 <= qualityFor 1200 <= 40)%Z.
Proof.
  apply (@quality_decreases 400 1200). lia.
Defined.

(** X20.  Whatever the metadata says (a width, the width 0, or no width
    at all, for which 2000 is assumed), each of the three variants is
    resized to a width of at least 1 and at most its nominal width; when
    the width is missing or 0 the variants get exactly the nominal
    widths 400, 800 and 1200. *)
Theorem resize_width_bounds (baseName : string) (m : Metadata) :
  (forall w, width m = Some w -> 0 <= w)%Z ->
  Forall (fun v => 1 <= target v <= nominal v)%Z (variants baseName m)
  /\ (width m = None \/ width m = Some 0%Z ->
      map target (variants baseName m) = [400; 800; 1200]%Z).
Proof.
  intros H. unfold variants, widths, origWidth. split.
  - destruct (width m) as [w|] eqn:E.
    + specialize (H w eq_refl). destruct (Z.eqb_spec w 0);
        repeat (apply Forall_cons; [cbn [target nominal variant]; lia|]);
        apply Forall_nil.
    + repeat (apply Forall_cons; [cbn [target nominal variant]; lia|]).
      apply Forall_nil.
  - intros [-> | ->]; reflexivity.
Qed.

Lemma resize_width_bounds_witness :
  Forall (fun v => 1 <= target v <= nominal v)%Z
         (variants "hero" {| width := None |})
  /\ (width {| width := None |} = None
      \/ width {| width := None |} = Some 0%Z ->
      map target (variants "hero" {| width := None |}) = [400; 800; 1200]%Z).
Proof.
  apply (@resize_width_bounds "hero" {| width := None |}).
  intros w H. discriminate H.
Defined.

End BuildProps.

(* ================================================================== *)
(** ** Properties of the directory walk *)

Module WalkFacts.

Import Walk.
Local Open Scope string_scope.

(** The files of a tree, depth first in directory order, each with the
    names of the directories that lead to it from the top. *)
Fixpoint filesOf (entry : Entry) : list (list string * string) :=
  match entry with
  | FileEntry name => [([], name)]
  | DirEntry name entries =>
      map (fun f => (name :: fst f, snd f)) (flat_map filesOf entries)
  end.

Definition files (entries : list Entry) : list (list string * string) :=
  flat_map filesOf entries.

(** The path of a file below [dir]: one [path.join] per directory on the
    way down, then one with the file's name. *)
Definition pathOf (join : string -> string -> string) (dir : string)
           (f : list string * string) : string :=
  join (fold_left join (fst f) dir) (snd f).

(** A source tree: photos in two categories and an empty directory. *)
Definition photos_tree : list Entry :=
  [ DirEntry "event" [FileEntry "IMG_0001.JPG"; FileEntry "notes.txt"];
    DirEntry "empty" [];
    DirEntry "sport" [DirEntry "raw" [FileEntry "run.png"]] ].

(** Induction on trees, with the hypothesis for every entry of a
    directory. *)
Lemma Entry_forall_ind (P : Entry -> Prop) :
  (forall name, P (FileEntry name)) ->
  (forall name entries, Forall P entries -> P (DirEntry name entries)) ->
  forall entry, P entry.
Proof.
  intros Hf Hd. fix IH 1. intros [name|name entries].
  - apply Hf.
  - apply Hd. induction entries as [|e rest IHr]; constructor.
    + apply IH.
    + exact IHr.
Qed.

Lemma flat_map_map {A B C : Type} (f : A -> list B) (g : B -> C)
      (l : list A) :
  map g (flat_map f l) = flat_map (fun a => map g (f a)) l.
Proof.
  induction l as [|a l IH]; [reflexivity|].
  cbn [flat_map]. rewrite map_app, IH. reflexivity.
Qed.

Lemma flat_map_agree {A B : Type} (f g : A -> list B) (l : list A) :
  Forall (fun a => f a = g a) l -> flat_map f l = flat_map g l.
Proof.
  induction 1 as [|a l Ha _ IH]; [reflexivity|].
  cbn [flat_map]. rewrite Ha, IH. reflexivity.
Qed.

Lemma walkEntry_files (join : string -> string -> string) (entry : Entry) :
  forall dir, walkEntry join dir entry = map (pathOf join dir) (filesOf entry).
Proof.
  induction entry as [n|d entries IH] using Entry_forall_ind; intros dir.
  - reflexivity.
  - cbn [walkEntry filesOf]. rewrite map_map.
    rewrite flat_map_map. apply flat_map_agree.
    eapply Forall_impl; [|exact IH]. intros e He. rewrite He.
    reflexivity.
Qed.

(** X21.  [walk] yields the files of the tree and nothing else, depth
    first in directory order, one path per file: the path that
    [path.join] builds from the directory walked, through each directory
    on the way down, to the file's name. *)
Theorem walk_yields_files (join : string -> string -> string)
        (dir : string) (entries : list Entry) :
  walk join dir entries = map (pathOf join dir) (files entries).
Proof.
  unfold walk, files. rewrite flat_map_map. apply flat_map_agree.
  apply Forall_forall. intros e _. apply walkEntry_files.
Qed.

(** The walk of the sample tree, in order: the empty directory yields
    nothing, and [run.png] is reached through two directories. *)
Example walk_photos_tree (join : string -> string -> string) :
  files photos_tree
  = [ (["event"], "IMG_0001.JPG"); (["event"], "notes.txt");
      (["sport"; "raw"], "run.png") ]
  /\ walk join "photos" photos_tree
     = [ join (join "photos" "event") "IMG_0001.JPG";
         join (join "photos" "event") "notes.txt";
         join (join (join "photos" "sport") "raw") "run.png" ].
Proof. split; reflexivity. Qed.

End WalkFacts.
